(** * Brand matching of product listings: a shallow embedding

    Verification development for [scripts/match_listings_to_brands.py] and
    the unmatched extract of [scripts/aggregate_country_basic.py].

    Python [str] values are sequences of Unicode code points; a pandas cell
    is either missing ([NaN]) or holds a text; a data frame is the list of
    its rows in index order.  The two libraries the matcher calls, the
    transliteration table of [unidecode] and the similarity metrics of
    [rapidfuzz.fuzz], are not part of the repository: the matcher is
    embedded over them as section variables, and a reference instance is
    given separately to run the embedding on concrete tables. *)

From Stdlib Require Import String Ascii.
From Stdlib Require Import List ZArith NArith QArith Bool Lia Permutation.
From Stdlib Require Import Sorted Qminmax.
Import ListNotations.

(** ** Text *)

(** A code point, and a Python [str]. *)
Definition char := N.
Definition str := list char.

(** Reading an ASCII literal: each character is its code point. *)
Definition lit (s : string) : str :=
  map N_of_ascii (list_ascii_of_string s).

(** A pandas cell of an object column read from CSV. *)
Inductive cell : Type :=
| NaN : cell
| Text : str -> cell.

Definition cell_eqb (a b : cell) : bool :=
  match a, b with
  | NaN, NaN => true
  | Text s, Text t => if list_eq_dec N.eq_dec s t then true else false
  | _, _ => false
  end.

(** [Series.fillna("")]. *)
Definition fillna (c : cell) : cell :=
  match c with
  | NaN => Text []
  | Text s => Text s
  end.

Open Scope N_scope.

Definition space : char := 32.

(** The characters Python treats as white space, both for [\s] in a [str]
    pattern and for [str.strip()]. *)
Definition is_space (c : char) : bool :=
  ((9 <=? c) && (c <=? 13)) || ((28 <=? c) && (c <=? 32))
  || (c =? 133) || (c =? 160) || (c =? 5760)
  || ((8192 <=? c) && (c <=? 8202))
  || (c =? 8232) || (c =? 8233) || (c =? 8239) || (c =? 8287)
  || (c =? 12288).

(** The class [a-z0-9]. *)
Definition is_lower_alnum (c : char) : bool :=
  ((97 <=? c) && (c <=? 122)) || ((48 <=? c) && (c <=? 57)).

(** The negated class [^a-z0-9\s]. *)
Definition is_dropped (c : char) : bool :=
  negb (is_lower_alnum c || is_space c).

(** [str.lower()] on the ASCII text that [unidecode] returns. *)
Definition lower_char (c : char) : char :=
  if (65 <=? c) && (c <=? 90) then c + 32 else c.

Definition lower (s : str) : str := map lower_char s.

(** [re.sub(p+, " ", s)]: every maximal run of characters of the class [p]
    is replaced by one space.  [inrun] tells that the previous character
    belonged to a run that has already been replaced. *)
Fixpoint sub_runs (p : char -> bool) (inrun : bool) (s : str) : str :=
  match s with
  | [] => []
  | c :: r =>
      if p c
      then (if inrun then sub_runs p true r else space :: sub_runs p true r)
      else c :: sub_runs p false r
  end.

Definition re_sub_plus (p : char -> bool) (s : str) : str :=
  sub_runs p false s.

Fixpoint lstrip (s : str) : str :=
  match s with
  | [] => []
  | c :: r => if is_space c then lstrip r else s
  end.

Definition rstrip (s : str) : str := rev (lstrip (rev s)).

Definition strip (s : str) : str := rstrip (lstrip s).

(** [compact]: [s.replace(" ", "") if s else s]. *)
Definition compact (s : str) : str :=
  match s with
  | [] => s
  | _ => filter (fun c => negb (c =? space)) s
  end.

(** [k in s] on strings: [k] occurs in [s] as a contiguous block. *)
Fixpoint starts_with (k s : str) : bool :=
  match k, s with
  | [], _ => true
  | _ :: _, [] => false
  | a :: k', b :: s' => (a =? b) && starts_with k' s'
  end.

Fixpoint contains (s k : str) : bool :=
  starts_with k s ||
  match s with
  | [] => false
  | _ :: r => contains r k
  end.

Section Normalizer.

(** The table of [unidecode] for the characters outside ASCII. *)
Variable translit : char -> str.

Definition unidecode (s : str) : str :=
  flat_map (fun c => if c <? 128 then [c] else translit c) s.

Definition norm (x : cell) : str :=
  match x with
  | NaN => []
  | Text s =>
      let s := lower (unidecode s) in
      let s := re_sub_plus is_dropped s in
      strip (re_sub_plus is_space s)
  end.

End Normalizer.

(** The shape of a normalized text, as a decidable check. *)
Definition is_word_char (c : char) : bool := is_lower_alnum c || (c =? space).

Fixpoint single_spaced (s : str) : bool :=
  match s with
  | [] => true
  | c :: r =>
      match r with
      | [] => true
      | d :: _ => negb ((c =? space) && (d =? space)) && single_spaced r
      end
  end.

Definition starts_with_space (s : str) : bool :=
  match s with
  | c :: _ => is_space c
  | [] => false
  end.

Definition ends_with_space (s : str) : bool := starts_with_space (rev s).

Definition is_normal (s : str) : bool :=
  forallb is_word_char s && single_spaced s
  && negb (starts_with_space s) && negb (ends_with_space s).

(** No two spaces in a row. *)
Definition no_double_space (s : str) : Prop :=
  forall pre post, s <> pre ++ space :: space :: post.

Definition head_is_space (s : str) : bool :=
  match s with
  | c :: _ => (c =? space)%N
  | [] => false
  end.

(** ** Brand keyspace *)

(** A row of the brand reference table: the columns [brand] and [key]. *)
Record brand_row : Type := mk_brand_row {
  raw_brand : cell;
  raw_key : cell
}.

(** A row of the keyspace: the table's columns and the two derived ones. *)
Record brand_key : Type := mk_brand_key {
  brand : cell;
  key : cell;
  key_norm : str;
  key_compact : str
}.

(** The subset [["brand", "key_norm"]] on which duplicates are dropped. *)
Definition dedup_key (r : brand_key) : cell * str := (brand r, key_norm r).

Definition dedup_key_eqb (a b : cell * str) : bool :=
  cell_eqb (fst a) (fst b) && cell_eqb (Text (snd a)) (Text (snd b)).

(** [out["key_norm"] != ""] and [out["brand"] != ""], element by element:
    a missing brand is a float, which differs from the empty string. *)
Definition str_nonempty (s : str) : bool :=
  match s with
  | [] => false
  | _ :: _ => true
  end.

Definition cell_not_empty_string (c : cell) : bool :=
  match c with
  | NaN => true
  | Text s => str_nonempty s
  end.

Definition keep_row (r : brand_key) : bool :=
  str_nonempty (key_norm r) && cell_not_empty_string (brand r).

(** [DataFrame.drop_duplicates(subset=...)] with the default [keep="first"]:
    a row is dropped when an earlier row had the same subset values. *)
Fixpoint drop_duplicates_from (seen : list (cell * str)) (rows : list brand_key)
  : list brand_key :=
  match rows with
  | [] => []
  | r :: rest =>
      if existsb (dedup_key_eqb (dedup_key r)) seen
      then drop_duplicates_from seen rest
      else r :: drop_duplicates_from (dedup_key r :: seen) rest
  end.

Definition drop_duplicates (rows : list brand_key) : list brand_key :=
  drop_duplicates_from [] rows.

Section Keyspace.

Variable translit : char -> str.

(** The two assignments of [build_brand_keyspace]. *)
Definition derive_keys (r : brand_row) : brand_key :=
  let kn := norm translit (fillna (raw_key r)) in
  {| brand := raw_brand r; key := raw_key r;
     key_norm := kn; key_compact := compact kn |}.

Definition valid_rows (brands_df : list brand_row) : list brand_key :=
  filter keep_row (map derive_keys brands_df).

Definition build_brand_keyspace (brands_df : list brand_row) : list brand_key :=
  drop_duplicates (valid_rows brands_df).

End Keyspace.

(** ** Scoring and best match *)

Open Scope Z_scope.

(** The running best of [best_brand]: [(brand, score, matched_key_norm)],
    where [None] is Python's [None]. *)
Definition best : Type := option cell * Z * option str.

Definition best_init : best := (None, 0, None).

Definition score_of (b : best) : Z := snd (fst b).
Definition brand_of (b : best) : option cell := fst (fst b).
Definition key_of (b : best) : option str := snd b.

Section Matcher.

(** [fuzz.partial_ratio] and [fuzz.token_set_ratio].  The matcher only
    compares scores with each other and with the threshold; they stand here
    as integers.  The library returns fractions: the scorer on those is
    [Unrounded.score_listing_against_key]. *)
Variable partial_ratio : str -> str -> Z.
Variable token_set_ratio : str -> str -> Z.

Definition score_listing_against_key
  (list_norm list_compact key_norm key_compact : str) : Z :=
  let s1 := partial_ratio list_norm key_norm in
  let s2 := token_set_ratio list_norm key_norm in
  let s3 := partial_ratio list_compact key_compact in
  Z.max (Z.max s1 s2) s3.

Definition score_row (list_norm list_compact : str) (row : brand_key) : Z :=
  score_listing_against_key list_norm list_compact
    (key_norm row) (key_compact row).

(** The boolean mask of the prefilter. *)
Definition in_listing (list_norm list_compact : str) (row : brand_key) : bool :=
  contains list_norm (key_norm row) || contains list_compact (key_compact row).

Definition shortlist (list_norm list_compact : str)
  (brand_keys : list brand_key) : list brand_key :=
  filter (in_listing list_norm list_compact) brand_keys.

(** [sub if len(sub) else brand_keys]. *)
Definition candidates (list_norm list_compact : str)
  (brand_keys : list brand_key) : list brand_key :=
  match shortlist list_norm list_compact brand_keys with
  | [] => brand_keys
  | sub => sub
  end.

(** One turn of the loop over the candidates. *)
Definition consider (list_norm list_compact : str) (b : best)
  (row : brand_key) : best :=
  let sc := score_row list_norm list_compact row in
  if score_of b <? sc then (Some (brand row), sc, Some (key_norm row)) else b.

Definition scan (list_norm list_compact : str) (rows : list brand_key) : best :=
  fold_left (consider list_norm list_compact) rows best_init.

Definition best_brand (list_norm list_compact : str)
  (brand_keys : list brand_key) : best :=
  scan list_norm list_compact (candidates list_norm list_compact brand_keys).

(** The reference of the specification: every key of the keyspace is
    scored, without the prefilter. *)
Definition best_brand_full_scan (list_norm list_compact : str)
  (brand_keys : list brand_key) : best :=
  scan list_norm list_compact brand_keys.

(** The winner of a scan that starts from [start]: the first row of
    maximal score if that score beats the starting one, else [start]. *)
Definition first_best (ln lc : str) (rows : list brand_key) (start : best)
  (b : best) : Prop :=
  (b = start /\ Forall (fun x => score_row ln lc x <= score_of start) rows)
  \/ exists pre r post,
       rows = pre ++ r :: post
       /\ score_of start < score_row ln lc r
       /\ Forall (fun x => score_row ln lc x < score_row ln lc r) pre
       /\ Forall (fun x => score_row ln lc x <= score_row ln lc r) post
       /\ b = (Some (brand r), score_row ln lc r, Some (key_norm r)).

(** The three output columns that [main] builds by appending. *)
Record matches : Type := mk_matches {
  matched_brand : list cell;
  match_score : list Z;
  matched_key : list (option str)
}.

Definition no_matches : matches := mk_matches [] [] [].

Definition no_brand : str := lit "no brand".

(** The test [b is not None and sc >= args.threshold]. *)
Definition accepted (threshold : Z) (b : best) : bool :=
  match brand_of b with
  | Some _ => threshold <=? score_of b
  | None => false
  end.

(** The brand appended for a listing. *)
Definition emitted_brand (threshold : Z) (b : best) : cell :=
  match brand_of b with
  | Some c => if threshold <=? score_of b then c else Text no_brand
  | None => Text no_brand
  end.

(** The body of the matching loop of [main]. *)
Definition match_step (threshold : Z) (brand_keys : list brand_key)
  (acc : matches) (l : str * str) : matches :=
  let b := best_brand (fst l) (snd l) brand_keys in
  {| matched_brand := matched_brand acc ++ [emitted_brand threshold b];
     match_score := match_score acc ++ [score_of b];
     matched_key := matched_key acc ++ [key_of b] |}.

Definition match_loop (threshold : Z) (brand_keys : list brand_key)
  (listings : list (str * str)) : matches :=
  fold_left (match_step threshold brand_keys) listings no_matches.

Variable translit : char -> str.

(** The prepared fields [__list_norm] and [__list_compact], zipped. *)
Definition prepare (listing_col : list cell) : list (str * str) :=
  let list_norm := map (fun c => norm translit (fillna c)) listing_col in
  combine list_norm (map compact list_norm).

(** [main], from the two tables to the three output columns. *)
Definition run (threshold : Z) (brands : list brand_row)
  (listing_col : list cell) : matches :=
  match_loop threshold (build_brand_keyspace translit brands)
    (prepare listing_col).

End Matcher.

(** ** The unmatched extract of the aggregator *)


(** A cell of the matched table as [read_csv] types it. *)
Inductive value : Type :=
| VNaN : value
| VStr : str -> value
| VNum : Q -> value.

(** A row with its index label; a frame with its column names. *)
Record frame_row : Type := mk_frame_row {
  label : nat;
  values : list value
}.

Record frame : Type := mk_frame {
  columns : list string;
  rows : list frame_row
}.

Definition has_column (c : string) (cols : list string) : bool :=
  existsb (String.eqb c) cols.

Fixpoint col_index (c : string) (cols : list string) : option nat :=
  match cols with
  | [] => None
  | d :: rest =>
      if String.eqb c d then Some O
      else option_map S (col_index c rest)
  end.

Definition at_col (cols : list string) (c : string) (r : frame_row) : value :=
  match col_index c cols with
  | Some i => nth i (values r) VNaN
  | None => VNaN
  end.

(** [Series.eq("no brand")], element by element. *)
Definition eq_no_brand (v : value) : bool :=
  match v with
  | VStr s => if list_eq_dec N.eq_dec s (lit "no brand") then true else false
  | _ => false
  end.

(** [um[keep_cols]]. *)
Definition select (keep : list string) (f : frame) : frame :=
  {| columns := keep;
     rows := map (fun r => {| label := label r;
                              values := map (fun c => at_col (columns f) c r) keep |})
               (rows f) |}.

Fixpoint str_leb (a b : str) : bool :=
  match a, b with
  | [], _ => true
  | _ :: _, [] => false
  | x :: a', y :: b' => (x <? y)%N || ((x =? y)%N && str_leb a' b')
  end.

(** [a] may stand before [b] when sorting descending with missing values
    last.  A column read from CSV holds numbers or texts, never both; the
    order between a number and a text is immaterial. *)
Definition stands_before (a b : value) : bool :=
  match a, b with
  | _, VNaN => true
  | VNaN, _ => false
  | VNum p, VNum q => Qle_bool q p
  | VStr s, VStr t => str_leb t s
  | VNum _, VStr _ => true
  | VStr _, VNum _ => false
  end.

Fixpoint insert_sorted (score : frame_row -> value) (r : frame_row)
  (l : list frame_row) : list frame_row :=
  match l with
  | [] => [r]
  | h :: t =>
      if stands_before (score r) (score h) then r :: l
      else h :: insert_sorted score r t
  end.

(** [sort_values("Match Score", ascending=False, na_position="last")]: each
    row, from the last to the first, is put before the first row it may
    stand before, so rows of equal score, and rows without score, keep the
    order they had. *)
Definition sort_values_desc (c : string) (f : frame) : frame :=
  {| columns := columns f;
     rows := fold_right (insert_sorted (at_col (columns f) c)) [] (rows f) |}.

(** The mask [df[args.brand_col].eq("no brand")]. *)
Definition is_unmatched (brand_col : string) (df : frame) (r : frame_row) : bool :=
  eq_no_brand (at_col (columns df) brand_col r).

(** The list comprehension that picks the columns worth keeping. *)
Definition keep_cols (units_col price_col : string) (cols : list string)
  : list string :=
  filter (fun c => has_column c cols)
    ["Shop"; "Listing"; "Listing (Cleaned)"; units_col; price_col;
     "Match Score"]%string.

(** Lines 74-81 of the aggregator; [None] is the [KeyError] of
    [df[args.brand_col]] on a table without that column. *)
Definition unmatched_extract (brand_col units_col price_col : string)
  (df : frame) : option frame :=
  if has_column brand_col (columns df) then
    let um := {| columns := columns df;
                 rows := filter (is_unmatched brand_col df) (rows df) |} in
    let um := match keep_cols units_col price_col (columns um) with
              | [] => um
              | (_ :: _) as keep => select keep um
              end in
    Some (if has_column "Match Score" (columns um)
          then sort_values_desc "Match Score" um
          else um)
  else None.

(** What the extract shows of a row of the matched table. *)
Definition shown (units_col price_col : string) (df : frame) (r : frame_row)
  : frame_row :=
  match keep_cols units_col price_col (columns df) with
  | [] => r
  | (_ :: _) as keep =>
      {| label := label r;
         values := map (fun c => at_col (columns df) c r) keep |}
  end.

(** ** Reference instance of the two libraries *)

Module Fuzz.

(** Length of a longest common subsequence. *)
Fixpoint lcs (a : str) : str -> nat :=
  match a with
  | [] => fun _ => O
  | x :: a' =>
      fix lcs_row (b : str) : nat :=
        match b with
        | [] => O
        | y :: b' =>
            if (x =? y)%N then S (lcs a' b')
            else Nat.max (lcs a' b) (lcs_row b')
        end
  end.

(** Modelled from the spec: the similarity ratio behind the two metrics,
    an integer 0-100; the library [rapidfuzz] is not part of the
    repository.  Twice the common subsequence over the total length. *)
Definition ratio (a b : str) : Z :=
  match (length a + length b)%nat with
  | O => 100
  | n => Z.of_nat (200 * lcs a b) / Z.of_nat n
  end.

(** All blocks of [n] consecutive characters of [s]. *)
Fixpoint windows (n : nat) (s : str) : list str :=
  match s with
  | [] => []
  | _ :: r =>
      if (n <=? length s)%nat then firstn n s :: windows n r else []
  end.

Definition best_window (short long : str) : Z :=
  match short with
  | [] => match long with [] => 100 | _ :: _ => 0 end
  | _ :: _ =>
      fold_right Z.max 0 (map (ratio short) (windows (length short) long))
  end.

(** Modelled from the spec: partial-ratio, the best-aligning substring
    match of the shorter text inside the longer one. *)
Definition partial_ratio (a b : str) : Z :=
  if (length a <=? length b)%nat then best_window a b else best_window b a.

(** [str.split()]: the maximal blocks free of white space. *)
Fixpoint split_from (cur : str) (s : str) : list str :=
  match s with
  | [] => match cur with [] => [] | _ :: _ => [rev cur] end
  | c :: r =>
      if is_space c
      then match cur with
           | [] => split_from [] r
           | _ :: _ => rev cur :: split_from [] r
           end
      else split_from (c :: cur) r
  end.

Definition split (s : str) : list str := split_from [] s.

Fixpoint str_compare (a b : str) : comparison :=
  match a, b with
  | [], [] => Eq
  | [], _ :: _ => Lt
  | _ :: _, [] => Gt
  | x :: a', y :: b' =>
      match (x ?= y)%N with
      | Eq => str_compare a' b'
      | c => c
      end
  end.

Fixpoint insert_token (t : str) (l : list str) : list str :=
  match l with
  | [] => [t]
  | u :: r =>
      match str_compare t u with
      | Lt => t :: l
      | Eq => l
      | Gt => u :: insert_token t r
      end
  end.

(** The sorted set of the words of a text. *)
Definition token_set (s : str) : list str :=
  fold_right insert_token [] (split s).

Definition has_token (l : list str) (t : str) : bool :=
  existsb (fun u => match str_compare t u with Eq => true | _ => false end) l.

Fixpoint join (l : list str) : str :=
  match l with
  | [] => []
  | [t] => t
  | t :: r => t ++ space :: join r
  end.

(** Modelled from the spec: token-set-ratio, insensitive to the order and
    the repetition of words: the common words are compared with each
    side's words, and the two sides with each other. *)
Definition token_set_ratio (a b : str) : Z :=
  let ta := token_set a in
  let tb := token_set b in
  match ta, tb with
  | [], _ | _, [] => 0
  | _ :: _, _ :: _ =>
      let sect := filter (has_token tb) ta in
      let only_a := filter (fun t => negb (has_token tb t)) ta in
      let only_b := filter (fun t => negb (has_token ta t)) tb in
      match sect, only_a, only_b with
      | _ :: _, [], _ | _ :: _, _, [] => 100
      | _, _, _ =>
          let s := join sect in
          let c1 := join (sect ++ only_a) in
          let c2 := join (sect ++ only_b) in
          let across := ratio c1 c2 in
          match sect with
          | [] => across
          | _ :: _ => Z.max across (Z.max (ratio s c1) (ratio s c2))
          end
      end
  end.

End Fuzz.

Module Unidecode.

(** An excerpt of the transliteration table: a few Latin-1 letters and
    the no-break space.  A character the table lacks is dropped. *)
Definition latin1 (c : char) : str :=
  if (c =? 233)%N then lit "e"
  else if (c =? 201)%N then lit "E"
  else if (c =? 252)%N then lit "u"
  else if (c =? 241)%N then lit "n"
  else if (c =? 223)%N then lit "ss"
  else if (c =? 160)%N then lit " "
  else [].

End Unidecode.

(** ** Notions used to state the properties *)

(** A brand text made only of white space. *)
Definition is_blank (c : cell) : bool :=
  match c with
  | NaN => false
  | Text s => forallb is_space s
  end.

(** [r] stands in [rows] with no earlier row of the same brand and
    normalized key. *)
Definition first_occurrence (r : brand_key) (rows : list brand_key) : Prop :=
  exists pre post,
    rows = pre ++ r :: post /\ ~ In (dedup_key r) (map dedup_key pre).

(** [l] is [m] with some elements left out, the order kept. *)
Inductive subsequence {A : Type} : list A -> list A -> Prop :=
| subsequence_nil : subsequence [] []
| subsequence_skip (x : A) (l m : list A) :
    subsequence l m -> subsequence l (x :: m)
| subsequence_keep (x : A) (l m : list A) :
    subsequence l m -> subsequence (x :: l) (x :: m).

(** ** Sample tables *)

Module Sample.

(** Two aliases, the longer one first. *)
Definition brands : list brand_row :=
  [ mk_brand_row (Text (lit "BrandA")) (Text (lit "Apple iPhone"));
    mk_brand_row (Text (lit "BrandB")) (Text (lit "apple")) ].

(** A table whose only row has no key. *)
Definition keyless : list brand_row :=
  [ mk_brand_row (Text (lit "Acme")) NaN ].

Definition listings : list cell :=
  [ Text (lit "Apple"); Text (lit "USB hub"); NaN ].

(** A matched table of three listings: one unmatched, one matched to a
    brand, one matched to a brand whose name is "no brand". *)
Definition matched_table : frame :=
  {| columns := ["Listing"; "Brand (Matched)"; "Match Score"]%string;
     rows :=
       [ mk_frame_row 0 [VStr (lit "usb hub"); VStr (lit "no brand"); VNum (28 # 1)];
         mk_frame_row 1 [VStr (lit "apple"); VStr (lit "BrandB"); VNum (100 # 1)];
         mk_frame_row 2 [VStr (lit "acme widget"); VStr (lit "no brand");
                         VNum (100 # 1)] ] |}.

(** A reference table with a brand whose name is "no brand". *)
Definition odd_brands : list brand_row :=
  [ mk_brand_row (Text (lit "no brand")) (Text (lit "acme")) ].

End Sample.

(** ** The columns that the matcher writes *)

(** [df[c] = ...]: an existing column is replaced where it stands, a new one
    is added at the end. *)
Definition assign_column (c : string) (cols : list string) : list string :=
  if has_column c cols then cols else cols ++ [c].

(** [c.startswith("__")]. *)
Definition is_internal (c : string) : bool := String.prefix "__" c.

(** The column names of the table that [main] writes, from those of the
    two tables it reads; [None] is [sys.exit(1)] at the sanity checks,
    before anything is written.  On cells read from CSV the conversions
    inside the [try] do not raise, so its three assignments all happen. *)
Definition main_columns (listing_col price_col units_col : string)
  (input_cols brands_cols : list string) : option (list string) :=
  if negb (has_column listing_col input_cols) then None
  else if negb (has_column "brand" brands_cols)
          || negb (has_column "key" brands_cols) then None
  else
    let cols := assign_column "__list_norm" input_cols in
    let cols := assign_column "__list_compact" cols in
    let cols := assign_column "Brand (Matched)" cols in
    let cols := assign_column "Match Score" cols in
    let cols := assign_column "Matched Key" cols in
    let cols :=
      if has_column price_col cols && has_column units_col cols
      then assign_column "Revenue (USD)"
             (assign_column "__units" (assign_column "__price" cols))
      else cols in
    Some (filter (fun c => negb (is_internal c)) cols).

(** [a] may stand right before [b] in a table ordered by [score]. *)
Definition in_order (score : frame_row -> value) (a b : frame_row) : Prop :=
  stands_before (score a) (score b) = true.

(** ** The scorer on unrounded scores *)


Module Unrounded.

(** [score_listing_against_key] on the values the metrics return, which are
    fractions; [max(s1, s2, s3)] keeps the first of the greatest. *)
Definition score_listing_against_key
  (partial_ratio token_set_ratio : str -> str -> Q)
  (list_norm list_compact key_norm key_compact : str) : Q :=
  let s1 := partial_ratio list_norm key_norm in
  let s2 := token_set_ratio list_norm key_norm in
  let s3 := partial_ratio list_compact key_compact in
  Qmax (Qmax s1 s2) s3.

(** Modelled from the spec: the similarity ratio of [Fuzz.ratio], left
    unrounded as the library returns it: twice the common subsequence over
    the total length, out of 100. *)
Definition ratio (a b : str) : Q :=
  match (length a + length b)%nat with
  | O => inject_Z 100
  | S n => Z.of_nat (200 * Fuzz.lcs a b) # Pos.of_succ_nat n
  end.

Definition best_window (short long : str) : Q :=
  match short with
  | [] => match long with [] => inject_Z 100 | _ :: _ => inject_Z 0 end
  | _ :: _ =>
      fold_right Qmax (inject_Z 0)
        (map (ratio short) (Fuzz.windows (length short) long))
  end.

(** Modelled from the spec: partial-ratio, as [Fuzz.partial_ratio],
    unrounded. *)
Definition partial_ratio (a b : str) : Q :=
  if (length a <=? length b)%nat then best_window a b else best_window b a.

(** Modelled from the spec: token-set-ratio, as [Fuzz.token_set_ratio],
    unrounded. *)
Definition token_set_ratio (a b : str) : Q :=
  let ta := Fuzz.token_set a in
  let tb := Fuzz.token_set b in
  match ta, tb with
  | [], _ | _, [] => inject_Z 0
  | _ :: _, _ :: _ =>
      let sect := filter (Fuzz.has_token tb) ta in
      let only_a := filter (fun t => negb (Fuzz.has_token tb t)) ta in
      let only_b := filter (fun t => negb (Fuzz.has_token ta t)) tb in
      match sect, only_a, only_b with
      | _ :: _, [], _ | _ :: _, _, [] => inject_Z 100
      | _, _, _ =>
          let s := Fuzz.join sect in
          let c1 := Fuzz.join (sect ++ only_a) in
          let c2 := Fuzz.join (sect ++ only_b) in
          let across := ratio c1 c2 in
          match sect with
          | [] => across
          | _ :: _ => Qmax across (Qmax (ratio s c1) (ratio s c2))
          end
      end
  end.

End Unrounded.

(** * Properties *)

(** ** Characters *)

Local Open Scope N_scope.

Lemma is_space_spec (c : char) :
  is_space c = true <->
  (9 <= c <= 13 \/ 28 <= c <= 32 \/ c = 133 \/ c = 160 \/ c = 5760
   \/ 8192 <= c <= 8202 \/ c = 8232 \/ c = 8233 \/ c = 8239 \/ c = 8287
   \/ c = 12288).
Proof.
  unfold is_space.
  rewrite !orb_true_iff, !andb_true_iff, !N.leb_le, !N.eqb_eq. lia.
Qed.

Lemma is_lower_alnum_spec (c : char) :
  is_lower_alnum c = true <-> (97 <= c <= 122 \/ 48 <= c <= 57).
Proof.
  unfold is_lower_alnum.
  rewrite !orb_true_iff, !andb_true_iff, !N.leb_le. lia.
Qed.

Lemma is_word_char_spec (c : char) :
  is_word_char c = true <-> (97 <= c <= 122 \/ 48 <= c <= 57 \/ c = 32).
Proof.
  unfold is_word_char, space.
  rewrite orb_true_iff, is_lower_alnum_spec, N.eqb_eq. lia.
Qed.

Lemma word_char_space (c : char) :
  is_word_char c = true -> is_space c = (c =? space).
Proof.
  intros H. apply is_word_char_spec in H. unfold space.
  destruct (N.eqb_spec c 32) as [->|Hne]; [reflexivity|].
  destruct (is_space c) eqn:E; [|reflexivity].
  apply is_space_spec in E. lia.
Qed.

Lemma word_char_ascii (c : char) : is_word_char c = true -> (c <? 128) = true.
Proof.
  intros H. apply is_word_char_spec in H. apply N.ltb_lt. lia.
Qed.

Lemma word_char_lower (c : char) : is_word_char c = true -> lower_char c = c.
Proof.
  intros H. apply is_word_char_spec in H. unfold lower_char.
  destruct (N.leb_spec 65 c), (N.leb_spec c 90); simpl; try reflexivity. lia.
Qed.

Lemma word_char_kept (c : char) : is_word_char c = true -> is_dropped c = false.
Proof.
  intros H. unfold is_dropped. apply negb_false_iff.
  rewrite (word_char_space _ H). exact H.
Qed.

Lemma kept_not_space_is_word (c : char) :
  is_dropped c = false -> is_space c = false -> is_word_char c = true.
Proof.
  unfold is_dropped, is_word_char. intros H1 H2.
  apply negb_false_iff in H1. rewrite H2, orb_false_r in H1.
  now rewrite H1.
Qed.

(** ** The two substitutions *)

Lemma single_spaced_sound (s : str) :
  single_spaced s = true -> no_double_space s.
Proof.
  induction s as [|c r IH]; intros H pre post E.
  - destruct pre; discriminate.
  - destruct r as [|d r'].
    + destruct pre as [|? [|? ?]]; discriminate.
    + simpl in H. apply andb_true_iff in H as [Hcd Hr].
      destruct pre as [|p pre'].
      * injection E as -> ->. unfold space in Hcd. discriminate.
      * injection E as _ E. exact (IH Hr pre' post E).
Qed.

Lemma single_spaced_complete (s : str) :
  no_double_space s -> single_spaced s = true.
Proof.
  induction s as [|c r IH]; intros H; [reflexivity|].
  destruct r as [|d r']; [reflexivity|].
  change (negb ((c =? space) && (d =? space)) && single_spaced (d :: r') = true).
  apply andb_true_iff. split.
  - destruct (N.eqb_spec c space) as [->|]; [|reflexivity].
    destruct (N.eqb_spec d space) as [->|]; [|reflexivity].
    exfalso. exact (H [] r' eq_refl).
  - apply IH. intros pre post E. apply (H (c :: pre) post). simpl. now rewrite E.
Qed.

Lemma no_double_space_app (a b : str) :
  no_double_space (a ++ b) -> no_double_space a /\ no_double_space b.
Proof.
  intros H. split; intros pre post E; subst.
  - apply (H pre (post ++ b)). now rewrite <- app_assoc.
  - apply (H (a ++ pre) post). now rewrite <- app_assoc.
Qed.

Lemma sub_runs_dropped_chars (s : str) (b : bool) :
  forallb (fun c => negb (is_dropped c)) (sub_runs is_dropped b s) = true.
Proof.
  revert b. induction s as [|c r IH]; intros b; [reflexivity|].
  simpl. destruct (is_dropped c) eqn:E.
  - destruct b; [apply IH|]. simpl. now rewrite IH.
  - simpl. now rewrite E, IH.
Qed.

Lemma single_spaced_cons (c : char) (s : str) :
  single_spaced (c :: s)
  = negb ((c =? space) && head_is_space s) && single_spaced s.
Proof.
  destruct s as [|d r]; simpl; [now rewrite andb_false_r|reflexivity].
Qed.

Lemma sub_runs_space_shape (s : str) (b : bool) :
  forallb (fun c => negb (is_dropped c)) s = true ->
  forallb is_word_char (sub_runs is_space b s) = true
  /\ single_spaced (sub_runs is_space b s) = true
  /\ (b = true -> head_is_space (sub_runs is_space b s) = false).
Proof.
  revert b. induction s as [|c r IH]; intros b H.
  - simpl. auto.
  - simpl in H. apply andb_true_iff in H as [Hc Hr].
    apply negb_true_iff in Hc. simpl.
    destruct (is_space c) eqn:E.
    + destruct (IH true Hr) as (A & B & C). destruct b.
      * auto.
      * split; [|split]; [| |discriminate].
        -- simpl. exact A.
        -- rewrite single_spaced_cons, (C eq_refl), andb_false_r. exact B.
    + pose proof (kept_not_space_is_word _ Hc E) as Hw.
      assert (Hns : (c =? space) = false)
        by (rewrite <- (word_char_space _ Hw); exact E).
      destruct (IH false Hr) as (A & B & _).
      split; [|split].
      * simpl. now rewrite Hw.
      * rewrite single_spaced_cons, Hns. exact B.
      * intros _. exact Hns.
Qed.

(** ** Stripping *)

Lemma lstrip_suffix (s : str) : exists pre, s = pre ++ lstrip s.
Proof.
  induction s as [|c r [pre IH]]; [now exists []|].
  simpl. destruct (is_space c).
  - exists (c :: pre). simpl. now rewrite <- IH.
  - now exists [].
Qed.

Lemma lstrip_no_leading (s : str) : starts_with_space (lstrip s) = false.
Proof.
  induction s as [|c r IH]; [reflexivity|].
  simpl. destruct (is_space c) eqn:E; [exact IH|]. simpl. exact E.
Qed.

Lemma lstrip_fixed (s : str) : starts_with_space s = false -> lstrip s = s.
Proof.
  destruct s as [|c r]; [reflexivity|]. simpl. now intros ->.
Qed.

Lemma rstrip_prefix (s : str) : exists post, s = rstrip s ++ post.
Proof.
  unfold rstrip. destruct (lstrip_suffix (rev s)) as [pre E].
  exists (rev pre). rewrite <- rev_app_distr, <- E. now rewrite rev_involutive.
Qed.

Lemma rstrip_no_trailing (s : str) : ends_with_space (rstrip s) = false.
Proof.
  unfold ends_with_space, rstrip. rewrite rev_involutive. apply lstrip_no_leading.
Qed.

Lemma rstrip_fixed (s : str) : ends_with_space s = false -> rstrip s = s.
Proof.
  unfold ends_with_space, rstrip. intros H.
  rewrite (lstrip_fixed _ H). apply rev_involutive.
Qed.

Lemma prefix_no_leading (a b : str) :
  starts_with_space (a ++ b) = false -> starts_with_space a = false.
Proof.
  destruct a; [reflexivity|exact (fun H => H)].
Qed.

Lemma forallb_app_inv {A : Type} (p : A -> bool) (a b : list A) :
  forallb p (a ++ b) = true -> forallb p a = true /\ forallb p b = true.
Proof.
  rewrite forallb_app. apply andb_true_iff.
Qed.

Lemma strip_is_normal (s : str) :
  forallb is_word_char s = true -> single_spaced s = true ->
  is_normal (strip s) = true.
Proof.
  intros Hw Hs. unfold strip.
  destruct (lstrip_suffix s) as [pre E].
  destruct (rstrip_prefix (lstrip s)) as [post E'].
  set (t := rstrip (lstrip s)) in *.
  assert (Hs' : no_double_space s) by now apply single_spaced_sound.
  rewrite E, E' in Hw, Hs'.
  apply forallb_app_inv in Hw as [_ Hw]. apply forallb_app_inv in Hw as [Hw _].
  apply no_double_space_app in Hs' as [_ Hs'].
  apply no_double_space_app in Hs' as [Hs' _].
  unfold is_normal. rewrite Hw, (single_spaced_complete _ Hs'). simpl.
  assert (Hl : starts_with_space t = false).
  { apply prefix_no_leading with (b := post). rewrite <- E'.
    apply lstrip_no_leading. }
  rewrite Hl. unfold t. now rewrite rstrip_no_trailing.
Qed.

(** ** The normalizer *)

Lemma norm_is_normal (translit : char -> str) (x : cell) :
  is_normal (norm translit x) = true.
Proof.
  destruct x as [|s]; [reflexivity|]. simpl.
  destruct (sub_runs_space_shape (re_sub_plus is_dropped (lower (unidecode translit s)))
              false (sub_runs_dropped_chars _ false)) as (A & B & _).
  now apply strip_is_normal.
Qed.

Lemma unidecode_ascii (translit : char -> str) (s : str) :
  forallb (fun c => c <? 128) s = true -> unidecode translit s = s.
Proof.
  induction s as [|c r IH]; [reflexivity|]. simpl.
  intros H. apply andb_true_iff in H as [Hc Hr].
  unfold unidecode in *. simpl. rewrite Hc. simpl. now rewrite IH.
Qed.

Lemma sub_runs_none (p : char -> bool) (s : str) (b : bool) :
  forallb (fun c => negb (p c)) s = true -> sub_runs p b s = s.
Proof.
  revert b. induction s as [|c r IH]; intros b H; [reflexivity|].
  simpl in *. apply andb_true_iff in H as [Hc Hr].
  apply negb_true_iff in Hc. rewrite Hc. now rewrite IH.
Qed.

Lemma sub_runs_space_fixed (s : str) (b : bool) :
  forallb is_word_char s = true -> single_spaced s = true ->
  (b = true -> head_is_space s = false) ->
  sub_runs is_space b s = s.
Proof.
  revert b. induction s as [|c r IH]; intros b Hw Hs Hb; [reflexivity|].
  simpl in Hw. apply andb_true_iff in Hw as [Hc Hr].
  rewrite single_spaced_cons in Hs. apply andb_true_iff in Hs as [Hcd Hs].
  simpl. rewrite (word_char_space _ Hc).
  destruct (c =? space) eqn:E.
  - apply N.eqb_eq in E. subst c. destruct b.
    + specialize (Hb eq_refl). discriminate.
    + f_equal. apply IH; auto. intros _.
      simpl in Hcd. now apply negb_true_iff in Hcd.
  - f_equal. apply IH; auto. discriminate.
Qed.

Lemma forallb_impl {A : Type} (p q : A -> bool) (l : list A) :
  (forall a, p a = true -> q a = true) ->
  forallb p l = true -> forallb q l = true.
Proof.
  intros H. rewrite !forallb_forall. auto.
Qed.

Lemma norm_fixed (translit : char -> str) (s : str) :
  is_normal s = true -> norm translit (Text s) = s.
Proof.
  unfold is_normal. intros H.
  apply andb_true_iff in H as [H Ht]. apply andb_true_iff in H as [H Hl].
  apply andb_true_iff in H as [Hw Hs].
  apply negb_true_iff in Ht, Hl. simpl.
  rewrite unidecode_ascii by (revert Hw; apply forallb_impl, word_char_ascii).
  assert (El : lower s = s).
  { unfold lower. rewrite <- (map_id s) at 2. apply map_ext_in.
    intros c Hc. apply word_char_lower.
    rewrite forallb_forall in Hw. auto. }
  rewrite El. unfold re_sub_plus.
  rewrite (sub_runs_none is_dropped s)
    by (revert Hw; apply forallb_impl; intros c Hc;
        now rewrite (word_char_kept _ Hc)).
  rewrite sub_runs_space_fixed by (auto; discriminate).
  unfold strip. rewrite (lstrip_fixed _ Hl). now apply rstrip_fixed.
Qed.

Lemma no_leading_space (s : str) :
  starts_with_space s = false -> forall t, s <> space :: t.
Proof.
  intros H t ->. discriminate.
Qed.

Lemma no_trailing_space (s : str) :
  ends_with_space s = false -> forall t, s <> t ++ [space].
Proof.
  unfold ends_with_space. intros H t ->.
  rewrite rev_app_distr in H. discriminate.
Qed.

Lemma is_normal_parts (s : str) :
  is_normal s = true ->
  forallb is_word_char s = true /\ single_spaced s = true
  /\ starts_with_space s = false /\ ends_with_space s = false.
Proof.
  unfold is_normal. rewrite !andb_true_iff, !negb_true_iff. tauto.
Qed.

(** C5: the output of [norm] holds only lowercase ASCII letters, digits and
    spaces, never two spaces in a row, and neither starts nor ends with a
    space. *)
Theorem norm_output_shape (translit : char -> str) (x : cell) :
  Forall (fun c => 97 <= c <= 122 \/ 48 <= c <= 57 \/ c = 32) (norm translit x)
  /\ no_double_space (norm translit x)
  /\ (forall t, norm translit x <> space :: t)
  /\ (forall t, norm translit x <> t ++ [space]).
Proof.
  destruct (is_normal_parts _ (norm_is_normal translit x)) as (A & B & C & D).
  repeat split.
  - apply Forall_forall. intros c Hc. apply is_word_char_spec.
    rewrite forallb_forall in A. auto.
  - now apply single_spaced_sound.
  - now apply no_leading_space.
  - now apply no_trailing_space.
Qed.

(** C4: [norm] is idempotent: normalizing a normalized text returns it
    unchanged. *)
Theorem norm_idempotent (translit : char -> str) (x : cell) :
  norm translit (Text (norm translit x)) = norm translit x.
Proof.
  apply norm_fixed, norm_is_normal.
Qed.

(** ** The keyspace builder *)

Lemma dedup_key_eqb_spec (a b : cell * str) :
  dedup_key_eqb a b = true <-> a = b.
Proof.
  destruct a as [ca sa], b as [cb sb]. unfold dedup_key_eqb. simpl.
  destruct (list_eq_dec N.eq_dec sa sb) as [->|Hs].
  - rewrite andb_true_r. destruct ca as [|ta], cb as [|tb]; simpl;
      try (split; [discriminate|congruence]); [tauto|].
    destruct (list_eq_dec N.eq_dec ta tb) as [->|Ht]; [tauto|].
    split; [discriminate|congruence].
  - rewrite andb_false_r. split; [discriminate|congruence].
Qed.

Lemma seen_spec (k : cell * str) (seen : list (cell * str)) :
  existsb (dedup_key_eqb k) seen = true <-> In k seen.
Proof.
  rewrite existsb_exists. split.
  - intros (y & Hy & E). apply dedup_key_eqb_spec in E. now subst.
  - intros H. exists k. split; [exact H|]. now apply dedup_key_eqb_spec.
Qed.

Lemma drop_duplicates_from_in (seen : list (cell * str)) (rows : list brand_key)
  (r : brand_key) :
  In r (drop_duplicates_from seen rows) ->
  In r rows /\ ~ In (dedup_key r) seen.
Proof.
  revert seen. induction rows as [|x rest IH]; intros seen H; [contradiction|].
  simpl in H. destruct (existsb (dedup_key_eqb (dedup_key x)) seen) eqn:E.
  - destruct (IH _ H). split; [now right|assumption].
  - destruct H as [->|H].
    + split; [now left|]. intros Hin. apply seen_spec in Hin. congruence.
    + destruct (IH _ H) as [A B]. split; [now right|].
      intros Hin. apply B. now right.
Qed.

Lemma drop_duplicates_from_nodup (seen : list (cell * str))
  (rows : list brand_key) :
  NoDup (map dedup_key (drop_duplicates_from seen rows)).
Proof.
  revert seen. induction rows as [|x rest IH]; intros seen; [constructor|].
  simpl. destruct (existsb (dedup_key_eqb (dedup_key x)) seen); [apply IH|].
  simpl. constructor; [|apply IH].
  intros Hin. apply in_map_iff in Hin as (r & Er & Hr).
  apply drop_duplicates_from_in in Hr as [_ Hr]. apply Hr. rewrite Er. now left.
Qed.

Lemma drop_duplicates_from_first (seen : list (cell * str))
  (rows : list brand_key) (r : brand_key) :
  In r (drop_duplicates_from seen rows) -> first_occurrence r rows.
Proof.
  revert seen. induction rows as [|x rest IH]; intros seen H; [contradiction|].
  simpl in H. destruct (existsb (dedup_key_eqb (dedup_key x)) seen) eqn:E.
  - destruct (IH _ H) as (pre & post & Erows & Hpre).
    exists (x :: pre), post. split; [simpl; now rewrite Erows|].
    intros [Hx|Hin]; [|now apply Hpre].
    apply drop_duplicates_from_in in H as [_ Hr]. apply Hr.
    rewrite <- Hx. now apply seen_spec.
  - destruct H as [->|H].
    + exists [], rest. split; [reflexivity|]. intros [].
    + destruct (IH _ H) as (pre & post & Erows & Hpre).
      exists (x :: pre), post. split; [simpl; now rewrite Erows|].
      intros [Hx|Hin]; [|now apply Hpre].
      apply drop_duplicates_from_in in H as [_ Hr]. apply Hr. now left.
Qed.

Lemma drop_duplicates_from_complete (seen : list (cell * str))
  (rows : list brand_key) (r : brand_key) :
  In r rows ->
  In (dedup_key r) seen
  \/ In (dedup_key r) (map dedup_key (drop_duplicates_from seen rows)).
Proof.
  revert seen. induction rows as [|x rest IH]; intros seen H; [contradiction|].
  simpl. destruct (existsb (dedup_key_eqb (dedup_key x)) seen) eqn:E.
  - destruct H as [->|H]; [left; now apply seen_spec|now apply IH].
  - destruct H as [->|H]; [right; now left|].
    destruct (IH (dedup_key x :: seen) H) as [[Hx|Hs]|Hd].
    + right. left. exact Hx.
    + now left.
    + right. now right.
Qed.

Lemma drop_duplicates_from_subsequence (seen : list (cell * str))
  (rows : list brand_key) :
  subsequence (drop_duplicates_from seen rows) rows.
Proof.
  revert seen. induction rows as [|x rest IH]; intros seen; [constructor|].
  simpl. destruct (existsb (dedup_key_eqb (dedup_key x)) seen);
    constructor; apply IH.
Qed.

Lemma keep_row_spec (r : brand_key) :
  keep_row r = true <-> key_norm r <> [] /\ brand r <> Text [].
Proof.
  unfold keep_row. rewrite andb_true_iff.
  destruct (key_norm r), (brand r) as [|[|? ?]]; simpl;
    split; intros [A B]; try discriminate; try congruence;
    split; congruence.
Qed.

Lemma keyspace_rows_valid (translit : char -> str) (t : list brand_row)
  (r : brand_key) :
  In r (build_brand_keyspace translit t) ->
  keep_row r = true /\ exists x, In x t /\ r = derive_keys translit x.
Proof.
  intros H. apply drop_duplicates_from_in in H as [H _].
  apply filter_In in H as [H K]. split; [exact K|].
  apply in_map_iff in H as (x & E & Hx). now exists x.
Qed.

(** C3, as the code has it: the keyspace holds no entry with an empty
    normalized key and none whose brand is the empty string; no two entries
    share brand and normalized key; each entry is the first valid row of the
    table with its brand and normalized key, every valid row is represented,
    and the order of the table is kept. *)
Theorem keyspace_invariant (translit : char -> str) (t : list brand_row) :
  let ks := build_brand_keyspace translit t in
  Forall (fun r => key_norm r <> [] /\ brand r <> Text []) ks
  /\ NoDup (map dedup_key ks)
  /\ Forall (fun r => first_occurrence r (valid_rows translit t)) ks
  /\ Forall (fun r => In (dedup_key r) (map dedup_key ks)) (valid_rows translit t)
  /\ subsequence ks (valid_rows translit t).
Proof.
  cbv zeta. repeat split.
  - apply Forall_forall. intros r Hr.
    apply keyspace_rows_valid in Hr as [K _]. now apply keep_row_spec.
  - apply drop_duplicates_from_nodup.
  - apply Forall_forall. intros r Hr.
    now apply drop_duplicates_from_first with (seen := []).
  - apply Forall_forall. intros r Hr.
    destruct (drop_duplicates_from_complete [] _ _ Hr) as [[]|H]. exact H.
  - apply drop_duplicates_from_subsequence.
Qed.

(** C3 as stated fails: a brand made of one space is kept in the keyspace. *)
Lemma keyspace_keeps_blank_brand :
  let t := [mk_brand_row (Text (lit " ")) (Text (lit "acme"))] in
  existsb (fun r => is_blank (brand r))
    (build_brand_keyspace Unidecode.latin1 t) = true.
Proof.
  reflexivity.
Qed.

Lemma normal_nonempty_compact (s : str) :
  is_normal s = true -> s <> [] -> compact s <> [].
Proof.
  intros H Hne. destruct s as [|c r]; [congruence|].
  destruct (is_normal_parts _ H) as (Hw & _ & Hl & _).
  simpl in Hw, Hl. apply andb_true_iff in Hw as [Hc _].
  rewrite (word_char_space _ Hc) in Hl. simpl. rewrite Hl. discriminate.
Qed.

Lemma contains_empty (s : str) : contains s [] = true.
Proof.
  destruct s; reflexivity.
Qed.

(** C9: every entry of the built keyspace has a non-empty compact key, so
    the prefilter never tests the empty text, which every listing
    contains. *)
Theorem keyspace_compact_key_nonempty (translit : char -> str)
  (t : list brand_row) (r : brand_key) :
  In r (build_brand_keyspace translit t) ->
  key_compact r <> [] /\ forall list_compact, contains list_compact [] = true.
Proof.
  intros H. split; [|apply contains_empty].
  apply keyspace_rows_valid in H as (K & x & _ & ->).
  apply keep_row_spec in K as [K _]. simpl in *.
  apply normal_nonempty_compact; [apply norm_is_normal|exact K].
Qed.

Lemma keyspace_compact_key_nonempty_witness :
  let t := [mk_brand_row (Text (lit "Acme")) (Text (lit "Acme Co."))] in
  let r := derive_keys Unidecode.latin1
             (mk_brand_row (Text (lit "Acme")) (Text (lit "Acme Co."))) in
  In r (build_brand_keyspace Unidecode.latin1 t)
  /\ key_compact r <> [].
Proof.
  split.
  - left. reflexivity.
  - apply (keyspace_compact_key_nonempty Unidecode.latin1
             [mk_brand_row (Text (lit "Acme")) (Text (lit "Acme Co."))]).
    left. reflexivity.
Defined.

(** ** Scoring, scanning and the matching loop *)

Local Open Scope Z_scope.

Section MatcherFacts.

Variables pr tsr : str -> str -> Z.

Lemma fold_consider_first_best (ln lc : str) (rows : list brand_key)
  (start : best) :
  first_best pr tsr ln lc rows start
    (fold_left (consider pr tsr ln lc) rows start).
Proof.
  revert start. induction rows as [|x rest IH]; intros start.
  - left. split; [reflexivity|constructor].
  - simpl. specialize (IH (consider pr tsr ln lc start x)).
    remember (fold_left (consider pr tsr ln lc) rest
                (consider pr tsr ln lc start x)) as b eqn:Eb.
    clear Eb. unfold consider in IH.
    destruct (Z.ltb_spec (score_of start) (score_row pr tsr ln lc x))
      as [Hlt|Hge].
    + destruct IH as [[E Hall]|(pre & r & post & E & Hs & Hpre & Hpost & Hb)].
      * right. exists [], x, rest. simpl. repeat split; auto.
      * right. exists (x :: pre), r, post. subst rest.
        unfold score_of in Hs; simpl in Hs.
        split; [reflexivity|]. split; [lia|].
        split; [constructor; [lia|assumption]|]. split; assumption.
    + destruct IH as [[E Hall]|(pre & r & post & E & Hs & Hpre & Hpost & Hb)].
      * left. split; [exact E|]. constructor; assumption.
      * right. exists (x :: pre), r, post. subst rest.
        split; [reflexivity|]. split; [lia|].
        split; [constructor; [lia|assumption]|]. split; assumption.
Qed.

Lemma scan_first_best (ln lc : str) (rows : list brand_key) :
  first_best pr tsr ln lc rows best_init (scan pr tsr ln lc rows).
Proof.
  apply fold_consider_first_best.
Qed.

(** The loop of [main] appends one entry per listing to each column. *)
Lemma match_loop_from (threshold : Z) (ks : list brand_key)
  (ls : list (str * str)) (acc : matches) :
  fold_left (match_step pr tsr threshold ks) ls acc
  = {| matched_brand := matched_brand acc
         ++ map (fun l => emitted_brand threshold
                            (best_brand pr tsr (fst l) (snd l) ks)) ls;
       match_score := match_score acc
         ++ map (fun l => score_of (best_brand pr tsr (fst l) (snd l) ks)) ls;
       matched_key := matched_key acc
         ++ map (fun l => key_of (best_brand pr tsr (fst l) (snd l) ks)) ls |}.
Proof.
  revert acc. induction ls as [|l ls IH]; intros acc.
  - simpl. rewrite !app_nil_r. now destruct acc.
  - simpl. rewrite IH. simpl. now rewrite <- !app_assoc.
Qed.

Lemma match_loop_columns (threshold : Z) (ks : list brand_key)
  (ls : list (str * str)) :
  match_loop pr tsr threshold ks ls
  = {| matched_brand :=
         map (fun l => emitted_brand threshold
                         (best_brand pr tsr (fst l) (snd l) ks)) ls;
       match_score :=
         map (fun l => score_of (best_brand pr tsr (fst l) (snd l) ks)) ls;
       matched_key :=
         map (fun l => key_of (best_brand pr tsr (fst l) (snd l) ks)) ls |}.
Proof.
  unfold match_loop. now rewrite match_loop_from.
Qed.

End MatcherFacts.

Lemma accepted_monotone (t1 t2 : Z) (b : best) :
  t1 <= t2 -> accepted t2 b = true -> accepted t1 b = true.
Proof.
  unfold accepted. destruct (brand_of b); [|discriminate].
  rewrite !Z.leb_le. lia.
Qed.

Lemma emitted_brand_unmatched (threshold : Z) (b : best) :
  accepted threshold b = false -> emitted_brand threshold b = Text no_brand.
Proof.
  unfold accepted, emitted_brand. destruct (brand_of b); [|reflexivity].
  now intros ->.
Qed.

Lemma emitted_brand_matched (threshold : Z) (b : best) :
  accepted threshold b = true -> Some (emitted_brand threshold b) = brand_of b.
Proof.
  unfold accepted, emitted_brand. destruct (brand_of b); [|discriminate].
  now intros ->.
Qed.

Lemma prepare_length (translit : char -> str) (listing_col : list cell) :
  length (prepare translit listing_col) = length listing_col.
Proof.
  unfold prepare. rewrite length_combine, !length_map. apply Nat.min_id.
Qed.

(** ** The reference metrics *)

Lemma lcs_le_left (a b : str) : (Fuzz.lcs a b <= length a)%nat.
Proof.
  revert b. induction a as [|x a IHa]; intros b; [simpl; lia|].
  induction b as [|y b IHb]; [simpl; lia|].
  simpl in *. destruct (x =? y)%N.
  - specialize (IHa b). lia.
  - specialize (IHa (y :: b)). simpl in IHa. lia.
Qed.

Lemma lcs_le_right (a b : str) : (Fuzz.lcs a b <= length b)%nat.
Proof.
  revert b. induction a as [|x a IHa]; intros b; [simpl; lia|].
  induction b as [|y b IHb]; [simpl; lia|].
  simpl in *. destruct (x =? y)%N.
  - specialize (IHa b). lia.
  - specialize (IHa (y :: b)). simpl in IHa. lia.
Qed.

Lemma lcs_same (a : str) : Fuzz.lcs a a = length a.
Proof.
  induction a as [|x a IH]; [reflexivity|].
  simpl. now rewrite N.eqb_refl, IH.
Qed.

Lemma ratio_range (a b : str) : 0 <= Fuzz.ratio a b <= 100.
Proof.
  unfold Fuzz.ratio.
  pose proof (lcs_le_left a b). pose proof (lcs_le_right a b).
  destruct (length a + length b)%nat as [|n] eqn:E; [lia|].
  rewrite <- E. split.
  - apply Z.div_pos; lia.
  - apply Z.div_le_upper_bound; lia.
Qed.

Lemma ratio_same (a : str) : Fuzz.ratio a a = 100.
Proof.
  unfold Fuzz.ratio. rewrite lcs_same.
  destruct (length a + length a)%nat as [|n] eqn:E; [reflexivity|].
  rewrite <- E.
  replace (Z.of_nat (200 * length a)) with (100 * Z.of_nat (length a + length a))
    by lia.
  apply Z.div_mul. lia.
Qed.

Lemma fold_max_range (l : list Z) :
  Forall (fun z => 0 <= z <= 100) l -> 0 <= fold_right Z.max 0 l <= 100.
Proof.
  induction 1; simpl; lia.
Qed.

Lemma fold_max_ge (l : list Z) (z : Z) : In z l -> z <= fold_right Z.max 0 l.
Proof.
  induction l as [|y l IH]; [contradiction|].
  intros [->|H]; simpl; [lia|]. specialize (IH H). lia.
Qed.

Lemma best_window_range (short long : str) :
  0 <= Fuzz.best_window short long <= 100.
Proof.
  unfold Fuzz.best_window. destruct short; [destruct long; lia|].
  apply fold_max_range, Forall_forall. intros z Hz.
  apply in_map_iff in Hz as (w & <- & _). apply ratio_range.
Qed.

Lemma partial_ratio_range (a b : str) : 0 <= Fuzz.partial_ratio a b <= 100.
Proof.
  unfold Fuzz.partial_ratio.
  destruct (length a <=? length b)%nat; apply best_window_range.
Qed.

Lemma token_set_ratio_range (a b : str) : 0 <= Fuzz.token_set_ratio a b <= 100.
Proof.
  unfold Fuzz.token_set_ratio.
  destruct (Fuzz.token_set a) as [|ta1 ta], (Fuzz.token_set b) as [|tb1 tb];
    try lia.
  cbv zeta.
  destruct (filter (Fuzz.has_token (tb1 :: tb)) (ta1 :: ta)),
    (filter (fun t => negb (Fuzz.has_token (tb1 :: tb) t)) (ta1 :: ta)),
    (filter (fun t => negb (Fuzz.has_token (ta1 :: ta) t)) (tb1 :: tb));
    try lia;
    repeat match goal with
      | |- context [Fuzz.ratio ?x ?y] =>
          let H := fresh "R" in
          pose proof (ratio_range x y) as H;
          generalize dependent (Fuzz.ratio x y); intros
      end; lia.
Qed.

Lemma starts_with_split (k s : str) :
  starts_with k s = true -> exists post, s = k ++ post.
Proof.
  revert s. induction k as [|a k IH]; intros s H; [now exists s|].
  destruct s as [|b s]; [discriminate|]. simpl in H.
  apply andb_true_iff in H as [E H]. apply N.eqb_eq in E. subst b.
  destruct (IH _ H) as [post ->]. now exists post.
Qed.

Lemma contains_split (s k : str) :
  contains s k = true -> exists pre post, s = pre ++ k ++ post.
Proof.
  induction s as [|c s IH]; simpl; intros H.
  - rewrite orb_false_r in H. apply starts_with_split in H as [post E].
    now exists [], post.
  - apply orb_true_iff in H as [H|H].
    + apply starts_with_split in H as [post E]. now exists [], post.
    + destruct (IH H) as (pre & post & ->). now exists (c :: pre), post.
Qed.

Lemma windows_in (n : nat) (pre s : str) :
  s <> [] -> (n <= length s)%nat ->
  In (firstn n s) (Fuzz.windows n (pre ++ s)).
Proof.
  intros Hne Hn. induction pre as [|p pre IH].
  - destruct s as [|c r]; [congruence|]. simpl app.
    cbn [Fuzz.windows]. destruct (Nat.leb_spec n (length (c :: r))); [|lia].
    now left.
  - simpl app. cbn [Fuzz.windows].
    destruct (Nat.leb_spec n (length (p :: pre ++ s))) as [_|Hlt].
    + now right.
    + simpl in Hlt. rewrite length_app in Hlt. lia.
Qed.

Lemma best_window_hit (short long : str) :
  short <> [] -> In short (Fuzz.windows (length short) long) ->
  Fuzz.best_window short long = 100.
Proof.
  intros Hne Hin. pose proof (best_window_range short long) as R.
  unfold Fuzz.best_window in *. destruct short as [|c r]; [congruence|].
  assert (100 <= fold_right Z.max 0
                   (map (Fuzz.ratio (c :: r)) (Fuzz.windows (length (c :: r)) long))).
  { apply fold_max_ge. apply in_map_iff. exists (c :: r).
    split; [apply ratio_same|exact Hin]. }
  lia.
Qed.

Lemma partial_ratio_contained (l k : str) :
  k <> [] -> contains l k = true -> Fuzz.partial_ratio l k = 100.
Proof.
  intros Hne H. apply contains_split in H as (pre & post & ->).
  assert (Hin : In k (Fuzz.windows (length k) (pre ++ k ++ post))).
  { assert (E : firstn (length k) (k ++ post) = k)
      by (rewrite firstn_app, Nat.sub_diag, firstn_all; apply app_nil_r).
    rewrite <- E at 1.
    apply windows_in; [destruct k; [congruence|discriminate]|].
    rewrite length_app. lia. }
  unfold Fuzz.partial_ratio.
  destruct (Nat.leb_spec (length (pre ++ k ++ post)) (length k)) as [Hle|Hgt].
  - rewrite !length_app in Hle.
    destruct pre; [|simpl in Hle; lia]. destruct post; [|simpl in Hle; lia].
    simpl in *. rewrite app_nil_r in *. now apply best_window_hit.
  - now apply best_window_hit.
Qed.

(** ** The scorer *)


Lemma Qmax_inject_Z (a b : Z) :
  Qmax (inject_Z a) (inject_Z b) = inject_Z (Z.max a b).
Proof.
  unfold Qmax, GenericMinMax.gmax, Qcompare, Z.max. simpl.
  rewrite !Z.mul_1_r. now destruct (a ?= b).
Qed.

(** On metrics that return whole numbers the unrounded scorer is the
    integer one. *)
Lemma unrounded_score_of_integers (pr tsr : str -> str -> Z)
  (list_norm list_compact kn kc : str) :
  Unrounded.score_listing_against_key
    (fun a b => inject_Z (pr a b)) (fun a b => inject_Z (tsr a b))
    list_norm list_compact kn kc
  = inject_Z (score_listing_against_key pr tsr list_norm list_compact kn kc).
Proof.
  unfold Unrounded.score_listing_against_key, score_listing_against_key.
  now rewrite !Qmax_inject_Z.
Qed.





(** ** The prefilter against the full scan *)

Section Shortlisting.

Variables pr tsr : str -> str -> Z.
Hypothesis pr_le_100 : forall a b, pr a b <= 100.
Hypothesis tsr_le_100 : forall a b, tsr a b <= 100.
Hypothesis pr_contained :
  forall l k, k <> [] -> contains l k = true -> pr l k = 100.

Variables ln lc : str.

Lemma score_row_le_100 (r : brand_key) : score_row pr tsr ln lc r <= 100.
Proof.
  unfold score_row, score_listing_against_key.
  pose proof (pr_le_100 ln (key_norm r)). pose proof (tsr_le_100 ln (key_norm r)).
  pose proof (pr_le_100 lc (key_compact r)). lia.
Qed.

Lemma shortlisted_scores_100 (r : brand_key) :
  key_norm r <> [] -> key_compact r <> [] ->
  in_listing ln lc r = true -> score_row pr tsr ln lc r = 100.
Proof.
  intros Hn Hc H. pose proof (score_row_le_100 r) as Hle.
  unfold score_row, score_listing_against_key in *.
  apply orb_true_iff in H as [H|H].
  - rewrite (pr_contained _ _ Hn H) in *. lia.
  - rewrite (pr_contained _ _ Hc H) in *. lia.
Qed.

Variable ks : list brand_key.
Hypothesis keys_nonempty :
  Forall (fun r => key_norm r <> [] /\ key_compact r <> []) ks.

Lemma shortlist_scores (r : brand_key) :
  In r (shortlist ln lc ks) -> In r ks /\ score_row pr tsr ln lc r = 100.
Proof.
  intros H. apply filter_In in H as [Hin H]. split; [exact Hin|].
  rewrite Forall_forall in keys_nonempty.
  destruct (keys_nonempty _ Hin). now apply shortlisted_scores_100.
Qed.

Lemma scan_of_shortlist (r0 : brand_key) (rest : list brand_key) :
  shortlist ln lc ks = r0 :: rest ->
  scan pr tsr ln lc (r0 :: rest) = (Some (brand r0), 100, Some (key_norm r0)).
Proof.
  intros E.
  assert (Hall : forall r, In r (r0 :: rest) -> score_row pr tsr ln lc r = 100).
  { intros r Hr. rewrite <- E in Hr. now apply shortlist_scores. }
  pose proof (Hall r0 (or_introl eq_refl)) as H0.
  destruct (scan_first_best pr tsr ln lc (r0 :: rest))
    as [[_ Hle]|(pre & r & post & Erows & _ & Hpre & _ & ->)].
  - inversion Hle as [|? ? Hr0 _]. unfold score_of in Hr0; simpl in Hr0. lia.
  - destruct pre as [|p pre].
    + injection Erows as <- _. now rewrite H0.
    + injection Erows as <- Erest. inversion Hpre as [|? ? Hlt _].
      rewrite H0 in Hlt.
      rewrite (Hall r) in Hlt by (right; rewrite Erest; apply in_elt). lia.
Qed.

Lemma full_scan_score_100 (r0 : brand_key) :
  In r0 ks -> score_row pr tsr ln lc r0 = 100 ->
  score_of (scan pr tsr ln lc ks) = 100.
Proof.
  intros Hin H0.
  destruct (scan_first_best pr tsr ln lc ks)
    as [[_ Hle]|(pre & r & post & Erows & _ & Hpre & Hpost & ->)].
  - rewrite Forall_forall in Hle. specialize (Hle _ Hin).
    unfold score_of in Hle; simpl in Hle. lia.
  - unfold score_of; simpl. pose proof (score_row_le_100 r).
    rewrite Forall_forall in Hpre, Hpost. rewrite Erows in Hin.
    apply in_app_or in Hin as [Hin|[->|Hin]].
    + specialize (Hpre _ Hin). lia.
    + lia.
    + specialize (Hpost _ Hin). lia.
Qed.

Lemma shortlisting_result :
  score_of (best_brand pr tsr ln lc ks)
  = score_of (best_brand_full_scan pr tsr ln lc ks)
  /\ (shortlist ln lc ks = [] ->
      best_brand pr tsr ln lc ks = best_brand_full_scan pr tsr ln lc ks)
  /\ (forall r0 rest, shortlist ln lc ks = r0 :: rest ->
      best_brand pr tsr ln lc ks = (Some (brand r0), 100, Some (key_norm r0))).
Proof.
  unfold best_brand, best_brand_full_scan, candidates.
  destruct (shortlist ln lc ks) as [|r0 rest] eqn:E.
  - split; [reflexivity|]. split; [reflexivity|discriminate].
  - pose proof (scan_of_shortlist _ _ E) as Es. rewrite Es.
    split; [|split; [discriminate|]].
    + destruct (shortlist_scores r0) as [Hin H0];
        [rewrite E; now left|].
      now rewrite (full_scan_score_100 _ Hin H0).
    + intros ? ? [= <- <-]. reflexivity.
Qed.

End Shortlisting.

Lemma keyspace_keys_nonempty (translit : char -> str) (t : list brand_row) :
  Forall (fun r => key_norm r <> [] /\ key_compact r <> [])
    (build_brand_keyspace translit t).
Proof.
  apply Forall_forall. intros r Hr.
  apply keyspace_rows_valid in Hr as (K & x & _ & ->).
  apply keep_row_spec in K as [K _]. split; [exact K|].
  simpl in *. apply normal_nonempty_compact; [apply norm_is_normal|exact K].
Qed.




(** ** The matching loop *)

(** C6: acceptance is monotone in the threshold: a listing of the run that
    is matched under the higher threshold is matched under the lower one,
    with the same brand. *)
Theorem acceptance_monotone_in_threshold (pr tsr : str -> str -> Z)
  (translit : char -> str) (t1 t2 : Z) (brands : list brand_row)
  (listing_col : list cell) :
  t1 <= t2 ->
  let ks := build_brand_keyspace translit brands in
  Forall (fun l =>
            let b := best_brand pr tsr (fst l) (snd l) ks in
            accepted t2 b = true ->
            accepted t1 b = true /\ emitted_brand t1 b = emitted_brand t2 b)
    (prepare translit listing_col).
Proof.
  intros Hle ks. apply Forall_forall. intros l _ b H2.
  pose proof (accepted_monotone t1 t2 b Hle H2) as H1. split; [exact H1|].
  apply emitted_brand_matched in H1, H2. congruence.
Qed.

Lemma acceptance_monotone_in_threshold_witness :
  80 <= 85
  /\ Forall (fun l =>
       let b := best_brand Fuzz.partial_ratio Fuzz.token_set_ratio (fst l) (snd l)
                  (build_brand_keyspace Unidecode.latin1 Sample.brands) in
       accepted 85 b = true ->
       accepted 80 b = true /\ emitted_brand 80 b = emitted_brand 85 b)
     (prepare Unidecode.latin1 Sample.listings).
Proof.
  split; [lia|].
  apply (acceptance_monotone_in_threshold Fuzz.partial_ratio Fuzz.token_set_ratio
           Unidecode.latin1 80 85 Sample.brands Sample.listings). lia.
Defined.

Lemma map_const_length {A B C : Type} (c : C) (l : list A) (m : list B) :
  length l = length m -> map (fun _ => c) l = map (fun _ => c) m.
Proof.
  revert m. induction l as [|a l IH]; destruct m as [|b m]; simpl;
    try discriminate; [reflexivity|].
  intros [= E]. now rewrite (IH m E).
Qed.

(** C7: when the built keyspace is empty, every listing gets the brand
    "no brand", the score 0 and no matched key; the model is total, so
    nothing is raised. *)
Theorem empty_keyspace_no_brand (pr tsr : str -> str -> Z)
  (translit : char -> str) (threshold : Z) (brands : list brand_row)
  (listing_col : list cell) :
  build_brand_keyspace translit brands = [] ->
  run pr tsr translit threshold brands listing_col
  = {| matched_brand := map (fun _ => Text no_brand) listing_col;
       match_score := map (fun _ => 0) listing_col;
       matched_key := map (fun _ => None) listing_col |}.
Proof.
  intros E. unfold run. rewrite E, match_loop_columns.
  unfold best_brand, emitted_brand, accepted. cbn.
  f_equal; apply map_const_length, prepare_length.
Qed.

Lemma empty_keyspace_no_brand_witness :
  build_brand_keyspace Unidecode.latin1 Sample.keyless = []
  /\ run Fuzz.partial_ratio Fuzz.token_set_ratio Unidecode.latin1 85
       Sample.keyless Sample.listings
     = {| matched_brand := [Text no_brand; Text no_brand; Text no_brand];
          match_score := [0; 0; 0];
          matched_key := [None; None; None] |}.
Proof.
  split; [reflexivity|].
  apply (empty_keyspace_no_brand Fuzz.partial_ratio Fuzz.token_set_ratio
           Unidecode.latin1 85 Sample.keyless Sample.listings).
  reflexivity.
Defined.

(** C8: every listing gets exactly one entry in each output column; the
    score and the key written are those of the best candidate, also when
    the listing is unmatched and its brand is written as "no brand"; the
    key is absent exactly when no candidate scored above 0. *)
Theorem one_result_per_listing (pr tsr : str -> str -> Z)
  (translit : char -> str) (threshold : Z) (brands : list brand_row)
  (listing_col : list cell) (i : nat) (l : str * str) :
  nth_error (prepare translit listing_col) i = Some l ->
  let ks := build_brand_keyspace translit brands in
  let out := run pr tsr translit threshold brands listing_col in
  let b := best_brand pr tsr (fst l) (snd l) ks in
  (length (matched_brand out) = length listing_col
   /\ length (match_score out) = length listing_col
   /\ length (matched_key out) = length listing_col)
  /\ (nth_error (matched_brand out) i = Some (emitted_brand threshold b)
      /\ nth_error (match_score out) i = Some (score_of b)
      /\ nth_error (matched_key out) i = Some (key_of b))
  /\ (accepted threshold b = false -> emitted_brand threshold b = Text no_brand)
  /\ first_best pr tsr (fst l) (snd l) (candidates (fst l) (snd l) ks)
       best_init b.
Proof.
  intros Hl ks out b. unfold out, run. rewrite match_loop_columns. simpl.
  rewrite !length_map, prepare_length.
  split; [auto|]. split.
  - rewrite !nth_error_map, Hl. simpl. auto.
  - split; [apply emitted_brand_unmatched|apply scan_first_best].
Qed.

Lemma one_result_per_listing_witness :
  let out := run Fuzz.partial_ratio Fuzz.token_set_ratio Unidecode.latin1 85
               Sample.brands Sample.listings in
  nth_error (prepare Unidecode.latin1 Sample.listings) 1
  = Some (lit "usb hub", lit "usbhub")
  /\ length (match_score out) = length Sample.listings.
Proof.
  split; [reflexivity|].
  apply (one_result_per_listing Fuzz.partial_ratio Fuzz.token_set_ratio
           Unidecode.latin1 85 Sample.brands Sample.listings 1
           (lit "usb hub", lit "usbhub")).
  reflexivity.
Defined.

(** ** The unmatched extract *)

Lemma insert_sorted_perm (score : frame_row -> value) (r : frame_row)
  (l : list frame_row) :
  Permutation (insert_sorted score r l) (r :: l).
Proof.
  induction l as [|h t IH]; simpl; [reflexivity|].
  destruct (stands_before (score r) (score h)); [reflexivity|].
  rewrite IH. apply perm_swap.
Qed.

Lemma sort_values_desc_perm (c : string) (f : frame) :
  Permutation (rows (sort_values_desc c f)) (rows f).
Proof.
  unfold sort_values_desc. simpl.
  induction (rows f) as [|r l IH]; simpl; [reflexivity|].
  rewrite insert_sorted_perm. now constructor.
Qed.

Lemma unmatched_extract_perm (brand_col units_col price_col : string)
  (df um : frame) :
  unmatched_extract brand_col units_col price_col df = Some um ->
  Permutation (rows um)
    (map (shown units_col price_col df)
       (filter (is_unmatched brand_col df) (rows df))).
Proof.
  unfold unmatched_extract, shown.
  destruct (has_column brand_col (columns df)); [|discriminate].
  cbn [columns]. intros [= <-].
  destruct (keep_cols units_col price_col (columns df)) as [|k keep].
  - rewrite map_id.
    destruct (has_column "Match Score" _);
      [apply sort_values_desc_perm|reflexivity].
  - destruct (has_column "Match Score" _);
      [rewrite sort_values_desc_perm|]; reflexivity.
Qed.

Lemma shown_label (units_col price_col : string) (df : frame) (r : frame_row) :
  label (shown units_col price_col df r) = label r.
Proof.
  unfold shown. now destruct (keep_cols units_col price_col (columns df)).
Qed.

(** C10: the unmatched extract holds exactly the rows of the matched table
    whose brand column is the text "no brand", each once; the matcher writes
    that same text for a listing matched to a brand named "no brand", so
    such a listing lands in the extract too. *)
Theorem unmatched_extract_rows (brand_col units_col price_col : string)
  (df um : frame) :
  unmatched_extract brand_col units_col price_col df = Some um ->
  Permutation (rows um)
    (map (shown units_col price_col df)
       (filter (fun r => eq_no_brand (at_col (columns df) brand_col r)) (rows df)))
  /\ (forall r, In r (rows df) ->
        at_col (columns df) brand_col r = VStr no_brand ->
        In (label r) (map label (rows um)))
  /\ (forall threshold sc k,
        accepted threshold (Some (Text no_brand), sc, k) = (threshold <=? sc)
        /\ emitted_brand threshold (Some (Text no_brand), sc, k) = Text no_brand).
Proof.
  intros H. pose proof (unmatched_extract_perm _ _ _ _ _ H) as P.
  split; [exact P|]. split.
  - intros r Hr Hb. rewrite <- (shown_label units_col price_col df r).
    apply in_map. apply (Permutation_in _ (Permutation_sym P)).
    apply in_map. apply filter_In. split; [exact Hr|].
    unfold is_unmatched. rewrite Hb. reflexivity.
  - intros threshold sc k. split; [reflexivity|].
    unfold emitted_brand, score_of. simpl. now destruct (threshold <=? sc).
Qed.

Lemma unmatched_extract_rows_witness :
  let um := {| columns := ["Listing"; "Match Score"]%string;
               rows := [ mk_frame_row 2 [VStr (lit "acme widget"); VNum (100 # 1)];
                         mk_frame_row 0 [VStr (lit "usb hub"); VNum (28 # 1)] ] |} in
  unmatched_extract "Brand (Matched)" "Units Sold (Numeric)" "Price (USD)"
    Sample.matched_table = Some um
  /\ In 2%nat (map label (rows um))
  /\ run Fuzz.partial_ratio Fuzz.token_set_ratio Unidecode.latin1 85
       Sample.odd_brands [Text (lit "Acme widget")]
     = {| matched_brand := [Text (lit "no brand")];
          match_score := [100];
          matched_key := [Some (lit "acme")] |}.
Proof.
  cbv zeta. split; [reflexivity|]. split; [|reflexivity].
  refine (proj1 (proj2 (unmatched_extract_rows
                   "Brand (Matched)" "Units Sold (Numeric)" "Price (USD)"
                   Sample.matched_table _ eq_refl))
            (mk_frame_row 2 [VStr (lit "acme widget"); VStr (lit "no brand");
                             VNum (100 # 1)]) _ eq_refl).
  right. right. left. reflexivity.
Defined.

(** ** The matcher on a listing of the specification *)

Example iphone_listing_is_matched :
  run Fuzz.partial_ratio Fuzz.token_set_ratio Unidecode.latin1 85
    [mk_brand_row (Text (lit "Apple")) (Text (lit "iPhone"))]
    [Text (lit "Apple iPhone 13 Pro Max 128GB Black")]
  = {| matched_brand := [Text (lit "Apple")];
       match_score := [100];
       matched_key := [Some (lit "iphone")] |}.
Proof.
  vm_compute. reflexivity.
Qed.

Example accented_key_is_folded :
  norm Unidecode.latin1 (Text [78; 101; 115; 116; 108; 233; 32; 32; 38; 67; 111]%N)
  = lit "nestle co".
Proof.
  reflexivity.
Qed.

(** * Further properties of the matcher *)

(** ** Letters and digits through [norm] and [compact] *)

Local Open Scope N_scope.

Lemma space_not_alnum (c : char) :
  is_space c = true -> is_lower_alnum c = false.
Proof.
  intros H. apply is_space_spec in H.
  destruct (is_lower_alnum c) eqn:E; [|reflexivity].
  apply is_lower_alnum_spec in E. lia.
Qed.

Lemma dropped_not_alnum (c : char) :
  is_dropped c = true -> is_lower_alnum c = false.
Proof.
  unfold is_dropped. intros H. apply negb_true_iff in H.
  now apply orb_false_iff in H as [H _].
Qed.

Lemma compact_filter (s : str) :
  compact s = filter (fun c => negb (c =? space)) s.
Proof.
  now destruct s.
Qed.


Lemma filter_alnum_sub_runs (p : char -> bool) (b : bool) (s : str) :
  (forall c, p c = true -> is_lower_alnum c = false) ->
  filter is_lower_alnum (sub_runs p b s) = filter is_lower_alnum s.
Proof.
  intros Hp. revert b. induction s as [|c r IH]; intros b; [reflexivity|].
  simpl. destruct (p c) eqn:E.
  - rewrite (Hp c E). destruct b; simpl; apply IH.
  - simpl. now rewrite IH.
Qed.

Lemma filter_alnum_spaces (s : str) :
  forallb is_space s = true -> filter is_lower_alnum s = [].
Proof.
  induction s as [|c r IH]; [reflexivity|]. simpl. intros H.
  apply andb_true_iff in H as [Hc Hr].
  now rewrite (space_not_alnum c Hc), IH.
Qed.

Lemma lstrip_split (s : str) :
  exists pre, s = pre ++ lstrip s /\ forallb is_space pre = true.
Proof.
  induction s as [|c r (pre & E & Hpre)]; [now exists []|].
  simpl. destruct (is_space c) eqn:Ec.
  - exists (c :: pre). simpl. rewrite Ec, Hpre. split; [now f_equal|reflexivity].
  - now exists [].
Qed.

Lemma forallb_rev {A : Type} (p : A -> bool) (l : list A) :
  forallb p (rev l) = forallb p l.
Proof.
  induction l as [|a l IH]; [reflexivity|].
  simpl. rewrite forallb_app, IH. simpl. rewrite andb_true_r. apply andb_comm.
Qed.

Lemma rstrip_split (s : str) :
  exists post, s = rstrip s ++ post /\ forallb is_space post = true.
Proof.
  unfold rstrip. destruct (lstrip_split (rev s)) as (pre & E & Hpre).
  exists (rev pre). split.
  - rewrite <- rev_app_distr, <- E. now rewrite rev_involutive.
  - now rewrite forallb_rev.
Qed.

Lemma filter_alnum_strip (s : str) :
  filter is_lower_alnum (strip s) = filter is_lower_alnum s.
Proof.
  unfold strip.
  destruct (lstrip_split s) as (pre & E & Hpre).
  destruct (rstrip_split (lstrip s)) as (post & E' & Hpost).
  rewrite E at 2. rewrite E' at 2.
  rewrite !filter_app, (filter_alnum_spaces _ Hpre), (filter_alnum_spaces _ Hpost).
  now rewrite app_nil_r.
Qed.

Lemma compact_words (s : str) :
  forallb is_word_char s = true -> compact s = filter is_lower_alnum s.
Proof.
  intros H. rewrite compact_filter. apply filter_ext_in. intros c Hc.
  rewrite forallb_forall in H. specialize (H c Hc).
  apply is_word_char_spec in H.
  destruct (N.eqb_spec c space) as [->|Hne]; [reflexivity|].
  unfold space in Hne. symmetry. apply is_lower_alnum_spec. simpl. lia.
Qed.

Lemma compact_norm_text (translit : char -> str) (s : str) :
  compact (norm translit (Text s))
  = filter is_lower_alnum (lower (unidecode translit s)).
Proof.
  destruct (is_normal_parts _ (norm_is_normal translit (Text s))) as (Hw & _).
  rewrite (compact_words _ Hw). simpl. rewrite filter_alnum_strip.
  unfold re_sub_plus.
  rewrite (filter_alnum_sub_runs is_space) by apply space_not_alnum.
  now rewrite (filter_alnum_sub_runs is_dropped) by apply dropped_not_alnum.
Qed.

(** X1: the compact form of a normalized text is the letters and digits of
    the transliterated, lower-cased text, in their order: spacing and
    punctuation of the input leave no trace in it. *)
Theorem compact_norm_keeps_letters_and_digits (translit : char -> str) (s : str) :
  compact (norm translit (Text s))
  = filter is_lower_alnum (lower (unidecode translit s))
  /\ Forall (fun c => 97 <= c <= 122 \/ 48 <= c <= 57)
       (compact (norm translit (Text s))).
Proof.
  split; [apply compact_norm_text|].
  rewrite compact_norm_text. apply Forall_forall. intros c Hc.
  apply filter_In in Hc as [_ Hc]. now apply is_lower_alnum_spec.
Qed.

Lemma filter_nil_forall {A : Type} (p : A -> bool) (l : list A) :
  filter p l = [] <-> Forall (fun a => p a = false) l.
Proof.
  induction l as [|a l IH]; simpl.
  - split; constructor.
  - destruct (p a) eqn:E.
    + split; [discriminate|]. intros H. inversion H. congruence.
    + rewrite IH. split; [now constructor|]. intros H. now inversion H.
Qed.

(** X2: [norm] returns the empty text exactly for a missing value and for a
    text that holds no letter and no digit once transliterated and
    lower-cased. *)
Theorem norm_empty_iff (translit : char -> str) (x : cell) :
  norm translit x = [] <->
  match x with
  | NaN => True
  | Text s =>
      Forall (fun c => is_lower_alnum c = false) (lower (unidecode translit s))
  end.
Proof.
  destruct x as [|s]; [simpl; tauto|].
  rewrite <- filter_nil_forall, <- compact_norm_text. split.
  - now intros ->.
  - intros Hc. destruct (norm translit (Text s)) as [|c r] eqn:E; [reflexivity|].
    exfalso. apply (normal_nonempty_compact (c :: r)); [|discriminate|exact Hc].
    rewrite <- E. apply norm_is_normal.
Qed.

(** X3: on ASCII text [norm] does not see the case of letters. *)
Theorem norm_ignores_ascii_case (translit : char -> str) (s : str) :
  Forall (fun c => c < 128) s ->
  norm translit (Text (lower s)) = norm translit (Text s).
Proof.
  intros H.
  assert (Hs : forallb (fun c => c <? 128) s = true).
  { apply forallb_forall. rewrite Forall_forall in H. intros c Hc.
    apply N.ltb_lt. auto. }
  assert (Hl : forallb (fun c => c <? 128) (lower s) = true).
  { apply forallb_forall. intros c Hc. apply in_map_iff in Hc as (d & <- & Hd).
    rewrite Forall_forall in H. specialize (H d Hd). apply N.ltb_lt.
    unfold lower_char. destruct ((65 <=? d) && (d <=? 90)) eqn:E; [|exact H].
    apply andb_true_iff in E as [_ E]. apply N.leb_le in E. lia. }
  simpl. rewrite !unidecode_ascii by assumption.
  assert (Ell : lower (lower s) = lower s).
  { unfold lower. rewrite map_map. apply map_ext. intros c. unfold lower_char.
    destruct ((65 <=? c) && (c <=? 90)) eqn:E; [|now rewrite E].
    apply andb_true_iff in E as [E1 E2]. apply N.leb_le in E1, E2.
    destruct (N.leb_spec 65 (c + 32)), (N.leb_spec (c + 32) 90); simpl;
      try reflexivity; lia. }
  now rewrite Ell.
Qed.

Lemma norm_ignores_ascii_case_witness :
  Forall (fun c => c < 128) (lit "iPhone 13 PRO")
  /\ norm Unidecode.latin1 (Text (lower (lit "iPhone 13 PRO")))
     = norm Unidecode.latin1 (Text (lit "iPhone 13 PRO")).
Proof.
  assert (H : Forall (fun c => c < 128) (lit "iPhone 13 PRO"))
    by (repeat constructor).
  split; [exact H|].
  exact (norm_ignores_ascii_case Unidecode.latin1 (lit "iPhone 13 PRO") H).
Defined.

(** ** The substring test and the prefilter *)




Lemma prepare_map (translit : char -> str) (listing_col : list cell) :
  prepare translit listing_col
  = map (fun c => (norm translit (fillna c), compact (norm translit (fillna c))))
      listing_col.
Proof.
  unfold prepare. induction listing_col as [|c l IH]; [reflexivity|].
  simpl. now rewrite IH.
Qed.



(** ** More on the keyspace *)

Lemma drop_duplicates_from_nil (rows : list brand_key) :
  drop_duplicates_from [] rows = [] -> rows = [].
Proof.
  destruct rows; [reflexivity|discriminate].
Qed.

Lemma keep_row_false (translit : char -> str) (x : brand_row) :
  keep_row (derive_keys translit x) = false <->
  norm translit (fillna (raw_key x)) = [] \/ raw_brand x = Text [].
Proof.
  unfold keep_row. cbn [derive_keys key_norm brand].
  destruct (norm translit (fillna (raw_key x))) as [|c s];
    destruct (raw_brand x) as [|[|d b]]; simpl; split; intros H;
    try discriminate; try reflexivity; auto;
    destruct H as [H|H]; discriminate.
Qed.

(** X5: the keyspace is empty exactly when every row of the brand table has
    a key that normalizes to the empty text or has the empty string as its
    brand. *)
Theorem keyspace_empty_iff (translit : char -> str) (t : list brand_row) :
  build_brand_keyspace translit t = [] <->
  Forall (fun x => norm translit (fillna (raw_key x)) = [] \/ raw_brand x = Text [])
    t.
Proof.
  unfold build_brand_keyspace, drop_duplicates, valid_rows. split.
  - intros H. apply drop_duplicates_from_nil in H.
    apply filter_nil_forall in H. apply Forall_forall. intros x Hx.
    rewrite Forall_forall in H. apply keep_row_false.
    apply H. now apply in_map.
  - intros H. replace (filter keep_row (map (derive_keys translit) t)) with
      (@nil brand_key); [reflexivity|].
    symmetry. apply filter_nil_forall, Forall_forall. intros r Hr.
    apply in_map_iff in Hr as (x & <- & Hx). apply keep_row_false.
    rewrite Forall_forall in H. auto.
Qed.

(** X6: a row of the brand table whose brand is missing is not dropped: if
    its key normalizes to a non-empty text, the keyspace holds an entry with
    a missing brand for that normalized key. *)
Theorem keyspace_keeps_missing_brand (translit : char -> str)
  (t : list brand_row) (x : brand_row) :
  In x t -> raw_brand x = NaN ->
  norm translit (fillna (raw_key x)) <> [] ->
  exists r, In r (build_brand_keyspace translit t)
            /\ brand r = NaN
            /\ key_norm r = norm translit (fillna (raw_key x)).
Proof.
  intros Hx Hb Hk.
  assert (Hv : In (derive_keys translit x) (valid_rows translit t)).
  { apply filter_In. split; [now apply in_map|].
    destruct (keep_row (derive_keys translit x)) eqn:E; [reflexivity|].
    apply keep_row_false in E as [E|E]; [contradiction|congruence]. }
  destruct (drop_duplicates_from_complete [] _ _ Hv) as [[]|H].
  apply in_map_iff in H as (r & E & Hr). exists r. split; [exact Hr|].
  unfold dedup_key in E. cbn [derive_keys brand key_norm] in E.
  injection E as E1 E2. split; congruence.
Qed.

Lemma keyspace_keeps_missing_brand_witness :
  let x := mk_brand_row NaN (Text (lit "Acme")) in
  In x [mk_brand_row (Text (lit "Zed")) (Text (lit "zed")); x]
  /\ exists r, In r (build_brand_keyspace Unidecode.latin1
                       [mk_brand_row (Text (lit "Zed")) (Text (lit "zed")); x])
               /\ brand r = NaN
               /\ key_norm r = norm Unidecode.latin1 (fillna (raw_key x)).
Proof.
  cbv zeta.
  assert (Hx : In (mk_brand_row NaN (Text (lit "Acme")))
                 [mk_brand_row (Text (lit "Zed")) (Text (lit "zed"));
                  mk_brand_row NaN (Text (lit "Acme"))])
    by (right; left; reflexivity).
  split; [exact Hx|].
  apply (keyspace_keeps_missing_brand Unidecode.latin1 _ _ Hx eq_refl).
  discriminate.
Defined.

(** ** What the matching loop writes *)

Local Open Scope Z_scope.

Lemma candidates_incl (ln lc : str) (ks : list brand_key) (r : brand_key) :
  In r (candidates ln lc ks) -> In r ks.
Proof.
  unfold candidates, shortlist.
  destruct (filter (in_listing ln lc) ks) as [|r0 rest] eqn:E; [auto|].
  rewrite <- E. intros H. now apply filter_In in H.
Qed.

Lemma best_brand_winner (pr tsr : str -> str -> Z) (ln lc : str)
  (ks : list brand_key) :
  (best_brand pr tsr ln lc ks = best_init
   /\ Forall (fun r => score_row pr tsr ln lc r <= 0) (candidates ln lc ks))
  \/ exists r, In r ks /\ 0 < score_row pr tsr ln lc r
               /\ best_brand pr tsr ln lc ks
                  = (Some (brand r), score_row pr tsr ln lc r, Some (key_norm r)).
Proof.
  unfold best_brand.
  destruct (scan_first_best pr tsr ln lc (candidates ln lc ks))
    as [[E H]|(pre & r & post & E & Hs & _ & _ & Hb)].
  - left. split; assumption.
  - right. exists r. split; [|split; assumption].
    apply (candidates_incl ln lc). rewrite E. apply in_elt.
Qed.

Lemma accepted_spec (threshold : Z) (b : best) :
  accepted threshold b = true <->
  exists c, brand_of b = Some c /\ threshold <= score_of b.
Proof.
  unfold accepted. destruct (brand_of b) as [c|].
  - rewrite Z.leb_le. split; [intros H; now exists c|intros (? & _ & H); exact H].
  - split; [discriminate|intros (? & H & _); discriminate].
Qed.

Lemma emitted_brand_other (threshold : Z) (b : best) (c : cell) :
  emitted_brand threshold b = c -> c <> Text no_brand ->
  brand_of b = Some c /\ threshold <= score_of b.
Proof.
  intros E Hc. destruct (accepted threshold b) eqn:A.
  - pose proof (emitted_brand_matched _ _ A) as Hm.
    apply accepted_spec in A as (c' & Hb & Ht). split; congruence.
  - apply emitted_brand_unmatched in A. congruence.
Qed.

Lemma run_columns (pr tsr : str -> str -> Z) (translit : char -> str)
  (threshold : Z) (brands : list brand_row) (listing_col : list cell) :
  let ks := build_brand_keyspace translit brands in
  let result c :=
    best_brand pr tsr (norm translit (fillna c))
      (compact (norm translit (fillna c))) ks in
  run pr tsr translit threshold brands listing_col
  = {| matched_brand := map (fun c => emitted_brand threshold (result c)) listing_col;
       match_score := map (fun c => score_of (result c)) listing_col;
       matched_key := map (fun c => key_of (result c)) listing_col |}.
Proof.
  cbv zeta. unfold run. rewrite match_loop_columns, prepare_map, !map_map.
  reflexivity.
Qed.

(** X7: a brand written other than "no brand" is the brand of a keyspace
    entry whose normalized key is written beside it, with that entry's
    score, which is positive and at least the threshold. *)
Theorem written_brand_meets_threshold (pr tsr : str -> str -> Z)
  (translit : char -> str) (threshold : Z) (brands : list brand_row)
  (listing_col : list cell) (i : nat) (c : cell) :
  nth_error (matched_brand (run pr tsr translit threshold brands listing_col)) i
  = Some c ->
  c <> Text no_brand ->
  exists x r,
    nth_error listing_col i = Some x
    /\ In r (build_brand_keyspace translit brands)
    /\ brand r = c
    /\ nth_error (matched_key (run pr tsr translit threshold brands listing_col)) i
       = Some (Some (key_norm r))
    /\ nth_error (match_score (run pr tsr translit threshold brands listing_col)) i
       = Some (score_row pr tsr (norm translit (fillna x))
                 (compact (norm translit (fillna x))) r)
    /\ threshold <= score_row pr tsr (norm translit (fillna x))
                      (compact (norm translit (fillna x))) r
    /\ 0 < score_row pr tsr (norm translit (fillna x))
             (compact (norm translit (fillna x))) r.
Proof.
  rewrite run_columns. cbn [matched_brand match_score matched_key].
  rewrite !nth_error_map. intros H Hc.
  destruct (nth_error listing_col i) as [x|]; [|discriminate].
  cbn [option_map] in H |- *. injection H as H.
  apply emitted_brand_other in H as [Hb Ht]; [|exact Hc].
  destruct (best_brand_winner pr tsr (norm translit (fillna x))
              (compact (norm translit (fillna x)))
              (build_brand_keyspace translit brands))
    as [[E _]|(r & Hr & Hpos & E)]; rewrite E in Hb, Ht |- *.
  - discriminate.
  - exists x, r. unfold brand_of, score_of in *. simpl in *.
    injection Hb as Hb. repeat split; auto.
Qed.

Lemma written_brand_meets_threshold_witness :
  let out := run Fuzz.partial_ratio Fuzz.token_set_ratio Unidecode.latin1 85
               Sample.brands Sample.listings in
  nth_error (matched_brand out) 0 = Some (Text (lit "BrandB"))
  /\ exists x r,
       nth_error Sample.listings 0 = Some x
       /\ In r (build_brand_keyspace Unidecode.latin1 Sample.brands)
       /\ brand r = Text (lit "BrandB")
       /\ nth_error (matched_key out) 0 = Some (Some (key_norm r))
       /\ nth_error (match_score out) 0
          = Some (score_row Fuzz.partial_ratio Fuzz.token_set_ratio
                    (norm Unidecode.latin1 (fillna x))
                    (compact (norm Unidecode.latin1 (fillna x))) r)
       /\ 85 <= score_row Fuzz.partial_ratio Fuzz.token_set_ratio
                  (norm Unidecode.latin1 (fillna x))
                  (compact (norm Unidecode.latin1 (fillna x))) r
       /\ 0 < score_row Fuzz.partial_ratio Fuzz.token_set_ratio
                (norm Unidecode.latin1 (fillna x))
                (compact (norm Unidecode.latin1 (fillna x))) r.
Proof.
  cbv zeta.
  assert (H : nth_error
                (matched_brand
                   (run Fuzz.partial_ratio Fuzz.token_set_ratio Unidecode.latin1
                      85 Sample.brands Sample.listings)) 0
              = Some (Text (lit "BrandB"))) by (vm_compute; reflexivity).
  split; [exact H|].
  apply (written_brand_meets_threshold Fuzz.partial_ratio Fuzz.token_set_ratio
           Unidecode.latin1 85 Sample.brands Sample.listings 0 _ H).
  discriminate.
Defined.

(** X8: with a threshold of 0 or less a listing is matched exactly when its
    best score is above 0: a listing none of whose candidates scores above 0
    stays unmatched whatever the threshold. *)
Theorem nonpositive_threshold_needs_positive_score (pr tsr : str -> str -> Z)
  (threshold : Z) (ln lc : str) (ks : list brand_key) :
  threshold <= 0 ->
  (accepted threshold (best_brand pr tsr ln lc ks) = true <->
   0 < score_of (best_brand pr tsr ln lc ks))
  /\ (Forall (fun r => score_row pr tsr ln lc r <= 0) ks ->
      forall t, emitted_brand t (best_brand pr tsr ln lc ks) = Text no_brand).
Proof.
  intros Ht. split.
  - rewrite accepted_spec.
    destruct (best_brand_winner pr tsr ln lc ks) as [[E _]|(r & _ & Hpos & E)];
      rewrite E; unfold brand_of, score_of, best_init; simpl.
    + split; [intros (c & H & _); discriminate|lia].
    + split; [intros _; exact Hpos|]. intros _. eexists. split; [reflexivity|lia].
  - intros Hall t.
    destruct (best_brand_winner pr tsr ln lc ks) as [[E _]|(r & Hr & Hpos & E)];
      rewrite E.
    + reflexivity.
    + rewrite Forall_forall in Hall. specialize (Hall r Hr). lia.
Qed.

Lemma nonpositive_threshold_needs_positive_score_witness :
  0 <= 0
  /\ (accepted 0 (best_brand Fuzz.partial_ratio Fuzz.token_set_ratio
                    (lit "usb hub") (lit "usbhub")
                    (build_brand_keyspace Unidecode.latin1 Sample.brands)) = true
      <-> 0 < score_of (best_brand Fuzz.partial_ratio Fuzz.token_set_ratio
                          (lit "usb hub") (lit "usbhub")
                          (build_brand_keyspace Unidecode.latin1 Sample.brands))).
Proof.
  split; [lia|].
  apply (nonpositive_threshold_needs_positive_score
           Fuzz.partial_ratio Fuzz.token_set_ratio 0 (lit "usb hub") (lit "usbhub")
           (build_brand_keyspace Unidecode.latin1 Sample.brands)).
  lia.
Defined.

(** ** Listings under bounded metrics *)

Section BoundedMetrics.

Variables pr tsr : str -> str -> Z.
Hypothesis pr_le_100 : forall a b, pr a b <= 100.
Hypothesis tsr_le_100 : forall a b, tsr a b <= 100.

Lemma best_score_le_100 (ln lc : str) (ks : list brand_key) :
  score_of (best_brand pr tsr ln lc ks) <= 100.
Proof.
  destruct (best_brand_winner pr tsr ln lc ks) as [[E _]|(r & _ & _ & E)];
    rewrite E; unfold score_of, best_init; simpl; [lia|].
  now apply score_row_le_100.
Qed.

Lemma threshold_above_100 (translit : char -> str) (threshold : Z)
  (brands : list brand_row) (listing_col : list cell) :
  100 < threshold ->
  matched_brand (run pr tsr translit threshold brands listing_col)
  = map (fun _ => Text no_brand) listing_col.
Proof.
  intros Ht. rewrite run_columns. cbn [matched_brand]. apply map_ext.
  intros c. apply emitted_brand_unmatched.
  destruct (accepted threshold _) eqn:A; [|reflexivity].
  apply accepted_spec in A as (_ & _ & A).
  pose proof (best_score_le_100 (norm translit (fillna c))
                (compact (norm translit (fillna c)))
                (build_brand_keyspace translit brands)). lia.
Qed.

Hypothesis pr_contained :
  forall l k, k <> [] -> contains l k = true -> pr l k = 100.

Lemma contained_key_matched (translit : char -> str) (threshold : Z)
  (brands : list brand_row) (ln lc : str) (r : brand_key) :
  In r (build_brand_keyspace translit brands) ->
  in_listing ln lc r = true ->
  threshold <= 100 ->
  let b := best_brand pr tsr ln lc (build_brand_keyspace translit brands) in
  accepted threshold b = true
  /\ exists r0, In r0 (build_brand_keyspace translit brands)
                /\ in_listing ln lc r0 = true
                /\ b = (Some (brand r0), 100, Some (key_norm r0)).
Proof.
  intros Hr Hin Ht b.
  destruct (shortlist ln lc (build_brand_keyspace translit brands))
    as [|r0 rest] eqn:E.
  - assert (Hs : In r (shortlist ln lc (build_brand_keyspace translit brands)))
      by (apply filter_In; auto).
    rewrite E in Hs. contradiction.
  - destruct (shortlisting_result pr tsr pr_le_100 tsr_le_100 pr_contained ln lc
                (build_brand_keyspace translit brands)
                (keyspace_keys_nonempty translit brands)) as (_ & _ & H).
    specialize (H r0 rest E). split.
    + apply accepted_spec. unfold b. rewrite H. eexists.
      split; [reflexivity|exact Ht].
    + exists r0.
      assert (H0 : In r0 (shortlist ln lc (build_brand_keyspace translit brands)))
        by (rewrite E; now left).
      apply filter_In in H0 as [H1 H2]. auto.
Qed.

End BoundedMetrics.

(** X9: with metrics that never exceed 100, a threshold above 100 leaves
    every listing unmatched. *)
Theorem threshold_above_100_matches_nothing (pr tsr : str -> str -> Z)
  (translit : char -> str) (threshold : Z) (brands : list brand_row)
  (listing_col : list cell) :
  (forall a b, pr a b <= 100) ->
  (forall a b, tsr a b <= 100) ->
  100 < threshold ->
  matched_brand (run pr tsr translit threshold brands listing_col)
  = map (fun _ => Text no_brand) listing_col.
Proof.
  intros. now apply threshold_above_100.
Qed.

Lemma threshold_above_100_matches_nothing_witness :
  100 < 101
  /\ matched_brand (run Fuzz.partial_ratio Fuzz.token_set_ratio Unidecode.latin1
                      101 Sample.brands Sample.listings)
     = map (fun _ => Text no_brand) Sample.listings.
Proof.
  split; [lia|].
  apply (threshold_above_100_matches_nothing
           Fuzz.partial_ratio Fuzz.token_set_ratio Unidecode.latin1 101
           Sample.brands Sample.listings
           (fun a b => proj2 (partial_ratio_range a b))
           (fun a b => proj2 (token_set_ratio_range a b))).
  lia.
Defined.

(** X10: with metrics that never exceed 100 and give 100 to a contained
    key, a listing that contains a key of the built keyspace, in normalized
    or in compact form, is matched under every threshold up to 100, with
    score 100, to an entry whose key it contains. *)
Theorem contained_key_is_matched (pr tsr : str -> str -> Z)
  (translit : char -> str) (threshold : Z) (brands : list brand_row)
  (ln lc : str) (r : brand_key) :
  (forall a b, pr a b <= 100) ->
  (forall a b, tsr a b <= 100) ->
  (forall l k, k <> [] -> contains l k = true -> pr l k = 100) ->
  In r (build_brand_keyspace translit brands) ->
  in_listing ln lc r = true ->
  threshold <= 100 ->
  accepted threshold
    (best_brand pr tsr ln lc (build_brand_keyspace translit brands)) = true
  /\ exists r0, In r0 (build_brand_keyspace translit brands)
                /\ in_listing ln lc r0 = true
                /\ best_brand pr tsr ln lc (build_brand_keyspace translit brands)
                   = (Some (brand r0), 100, Some (key_norm r0)).
Proof.
  intros H1 H2 H3 Hr Hin Ht.
  exact (contained_key_matched pr tsr H1 H2 H3 translit threshold brands
           ln lc r Hr Hin Ht).
Qed.

Lemma contained_key_is_matched_witness :
  let ks := build_brand_keyspace Unidecode.latin1 Sample.brands in
  let r := derive_keys Unidecode.latin1
             (mk_brand_row (Text (lit "BrandB")) (Text (lit "apple"))) in
  In r ks
  /\ in_listing (lit "green apple pie") (lit "greenapplepie") r = true
  /\ accepted 85
       (best_brand Fuzz.partial_ratio Fuzz.token_set_ratio
          (lit "green apple pie") (lit "greenapplepie") ks) = true.
Proof.
  cbv zeta.
  assert (Hr : In (derive_keys Unidecode.latin1
                     (mk_brand_row (Text (lit "BrandB")) (Text (lit "apple"))))
                 (build_brand_keyspace Unidecode.latin1 Sample.brands))
    by (right; left; reflexivity).
  split; [exact Hr|]. split; [reflexivity|].
  apply (contained_key_is_matched Fuzz.partial_ratio Fuzz.token_set_ratio
           Unidecode.latin1 85 Sample.brands
           (lit "green apple pie") (lit "greenapplepie") _
           (fun a b => proj2 (partial_ratio_range a b))
           (fun a b => proj2 (token_set_ratio_range a b))
           partial_ratio_contained Hr eq_refl).
  lia.
Defined.

(** ** Blank listings *)

Lemma contains_in_empty (k : str) : k <> [] -> contains [] k = false.
Proof.
  destruct k; [congruence|reflexivity].
Qed.

Lemma best_brand_of_empty_listing (pr tsr : str -> str -> Z)
  (ks : list brand_key) :
  (forall k, k <> [] -> pr [] k <= 0) ->
  (forall k, k <> [] -> tsr [] k <= 0) ->
  Forall (fun r => key_norm r <> [] /\ key_compact r <> []) ks ->
  best_brand pr tsr [] [] ks = best_init.
Proof.
  intros Hpr Htsr Hks.
  destruct (best_brand_winner pr tsr [] [] ks) as [[E _]|(r & Hr & Hpos & _)];
    [exact E|].
  rewrite Forall_forall in Hks. destruct (Hks r Hr) as [Hn Hc].
  unfold score_row, score_listing_against_key in Hpos.
  pose proof (Hpr _ Hn). pose proof (Htsr _ Hn). pose proof (Hpr _ Hc). lia.
Qed.

(** X11: with metrics that give nothing to an empty listing text, a listing
    that is missing or normalizes to the empty text gets "no brand", the
    score 0 and no matched key, whatever the threshold and the brand
    table. *)
Theorem blank_listing_is_unmatched (pr tsr : str -> str -> Z)
  (translit : char -> str) (threshold : Z) (brands : list brand_row)
  (listing_col : list cell) (i : nat) (x : cell) :
  (forall k, k <> [] -> pr [] k <= 0) ->
  (forall k, k <> [] -> tsr [] k <= 0) ->
  nth_error listing_col i = Some x ->
  norm translit (fillna x) = [] ->
  let out := run pr tsr translit threshold brands listing_col in
  nth_error (matched_brand out) i = Some (Text no_brand)
  /\ nth_error (match_score out) i = Some 0
  /\ nth_error (matched_key out) i = Some None.
Proof.
  intros Hpr Htsr Hx Hn out. unfold out. rewrite run_columns.
  cbn [matched_brand match_score matched_key].
  rewrite !nth_error_map, Hx. cbn [option_map]. rewrite Hn.
  change (compact []) with (@nil char).
  rewrite (best_brand_of_empty_listing pr tsr _ Hpr Htsr
             (keyspace_keys_nonempty translit brands)).
  repeat split.
Qed.

Lemma empty_listing_scores_nothing (k : str) :
  k <> [] -> Fuzz.partial_ratio [] k <= 0 /\ Fuzz.token_set_ratio [] k <= 0.
Proof.
  intros Hk. destruct k as [|c k]; [congruence|]. split; [|reflexivity].
  unfold Fuzz.partial_ratio, Fuzz.best_window. simpl. lia.
Qed.

Lemma blank_listing_is_unmatched_witness :
  let out := run Fuzz.partial_ratio Fuzz.token_set_ratio Unidecode.latin1 85
               Sample.brands Sample.listings in
  nth_error Sample.listings 2 = Some NaN
  /\ norm Unidecode.latin1 (fillna NaN) = []
  /\ nth_error (matched_brand out) 2 = Some (Text no_brand)
  /\ nth_error (match_score out) 2 = Some 0
  /\ nth_error (matched_key out) 2 = Some None.
Proof.
  cbv zeta. split; [reflexivity|]. split; [reflexivity|].
  exact (blank_listing_is_unmatched Fuzz.partial_ratio Fuzz.token_set_ratio
           Unidecode.latin1 85 Sample.brands Sample.listings 2 NaN
           (fun k H => proj1 (empty_listing_scores_nothing k H))
           (fun k H => proj2 (empty_listing_scores_nothing k H))
           eq_refl eq_refl).
Defined.

(** ** Listings are matched one by one *)

(** X12: the result for a listing does not depend on the other listings:
    the columns written for two tables of listings put end to end are the
    columns written for each, put end to end. *)
Theorem run_on_appended_listings (pr tsr : str -> str -> Z)
  (translit : char -> str) (threshold : Z) (brands : list brand_row)
  (l1 l2 : list cell) :
  let out := run pr tsr translit threshold brands (l1 ++ l2) in
  let out1 := run pr tsr translit threshold brands l1 in
  let out2 := run pr tsr translit threshold brands l2 in
  matched_brand out = matched_brand out1 ++ matched_brand out2
  /\ match_score out = match_score out1 ++ match_score out2
  /\ matched_key out = matched_key out1 ++ matched_key out2.
Proof.
  cbv zeta. rewrite !run_columns. cbn [matched_brand match_score matched_key].
  rewrite !map_app. repeat split.
Qed.

(** ** The columns of the written table *)

Lemma has_column_spec (c : string) (cols : list string) :
  has_column c cols = true <-> In c cols.
Proof.
  unfold has_column. rewrite existsb_exists. split.
  - intros (d & Hd & E). apply String.eqb_eq in E. now subst.
  - intros H. exists c. split; [exact H|apply String.eqb_refl].
Qed.

Lemma assign_column_shape (c : string) (cols : list string) :
  exists e, assign_column c cols = cols ++ e
            /\ (e = [] \/ e = [c]) /\ In c (assign_column c cols).
Proof.
  unfold assign_column. destruct (has_column c cols) eqn:E.
  - exists []. rewrite app_nil_r. split; [reflexivity|].
    split; [now left|]. now apply has_column_spec.
  - exists [c]. split; [reflexivity|]. split; [now right|].
    apply in_or_app. right. now left.
Qed.

Lemma assign_column_keeps (c d : string) (cols : list string) :
  In d cols -> In d (assign_column c cols).
Proof.
  destruct (assign_column_shape c cols) as (e & -> & _). intros H.
  apply in_or_app. now left.
Qed.

(** The names a chain of assignments may add. *)
Lemma assign_column_added (c : string) (cols base : list string)
  (names : list string) :
  (exists extra, cols = base ++ extra /\ incl extra names) ->
  exists extra', assign_column c cols = base ++ extra'
                 /\ incl extra' (c :: names).
Proof.
  intros (extra & -> & Hincl).
  destruct (assign_column_shape c (base ++ extra)) as (e & -> & [-> | ->] & _).
  - exists extra. rewrite app_nil_r. split; [reflexivity|].
    intros x Hx. right. auto.
  - exists (extra ++ [c]). rewrite app_assoc. split; [reflexivity|].
    intros x Hx. apply in_app_or in Hx as [Hx|[<-|[]]]; [right; auto|now left].
Qed.

Lemma main_columns_shape (listing_col price_col units_col : string)
  (input_cols brands_cols out : list string) :
  main_columns listing_col price_col units_col input_cols brands_cols = Some out ->
  (In listing_col input_cols /\ In "brand"%string brands_cols
   /\ In "key"%string brands_cols)
  /\ Forall (fun c => is_internal c = false) out
  /\ (In "Brand (Matched)"%string out /\ In "Match Score"%string out
      /\ In "Matched Key"%string out)
  /\ exists added,
       out = filter (fun c => negb (is_internal c)) input_cols ++ added
       /\ incl added ["Brand (Matched)"; "Match Score"; "Matched Key";
                      "Revenue (USD)"]%string.
Proof.
  unfold main_columns.
  destruct (has_column listing_col input_cols) eqn:E1; [|discriminate].
  destruct (has_column "brand" brands_cols) eqn:E2; [|discriminate].
  destruct (has_column "key" brands_cols) eqn:E3; [|discriminate].
  cbn [negb orb]. cbv zeta.
  set (c5 := assign_column "Matched Key"
               (assign_column "Match Score"
                  (assign_column "Brand (Matched)"
                     (assign_column "__list_compact"
                        (assign_column "__list_norm" input_cols))))).
  set (final := if has_column price_col c5 && has_column units_col c5
                then assign_column "Revenue (USD)"
                       (assign_column "__units" (assign_column "__price" c5))
                else c5).
  intros [= <-].
  assert (H5 : exists extra, c5 = input_cols ++ extra
             /\ incl extra ["Matched Key"; "Match Score"; "Brand (Matched)";
                            "__list_compact"; "__list_norm"]%string).
  { unfold c5.
    repeat apply assign_column_added.
    exists []. split; [symmetry; apply app_nil_r|intros x []]. }
  assert (K5 : In "Brand (Matched)"%string c5 /\ In "Match Score"%string c5
               /\ In "Matched Key"%string c5).
  { unfold c5. repeat split.
    - do 2 apply assign_column_keeps.
      now destruct (assign_column_shape "Brand (Matched)"
                      (assign_column "__list_compact"
                         (assign_column "__list_norm" input_cols))) as (? & _ & _ & ?).
    - apply assign_column_keeps.
      now destruct (assign_column_shape "Match Score"
                      (assign_column "Brand (Matched)"
                         (assign_column "__list_compact"
                            (assign_column "__list_norm" input_cols))))
        as (? & _ & _ & ?).
    - now destruct (assign_column_shape "Matched Key"
                      (assign_column "Match Score"
                         (assign_column "Brand (Matched)"
                            (assign_column "__list_compact"
                               (assign_column "__list_norm" input_cols)))))
        as (? & _ & _ & ?). }
  assert (HF : exists extra, final = input_cols ++ extra
             /\ incl extra ["Revenue (USD)"; "__units"; "__price";
                            "Matched Key"; "Match Score"; "Brand (Matched)";
                            "__list_compact"; "__list_norm"]%string).
  { unfold final.
    destruct (has_column price_col c5 && has_column units_col c5).
    - do 3 apply assign_column_added. exact H5.
    - destruct H5 as (extra & E5 & I5).
      exists extra. split; [exact E5|]. intros x Hx. do 3 right. auto. }
  assert (KF : forall d, In d c5 -> In d final).
  { intros d Hd. unfold final.
    destruct (has_column price_col c5 && has_column units_col c5); [|exact Hd].
    now do 3 apply assign_column_keeps. }
  split; [repeat split; now apply has_column_spec|].
  split.
  { apply Forall_forall. intros c Hc. apply filter_In in Hc as [_ Hc].
    now apply negb_true_iff. }
  split.
  { destruct K5 as (A & B & C).
    repeat split; apply filter_In; (split; [now apply KF|reflexivity]). }
  destruct HF as (extra & -> & IF).
  exists (filter (fun c => negb (is_internal c)) extra).
  split; [apply filter_app|].
  intros x Hx. apply filter_In in Hx as [Hx Hi]. specialize (IF x Hx).
  simpl in IF.
  repeat (destruct IF as [<-|IF]; [first [discriminate Hi | simpl; tauto]|]).
  contradiction.
Qed.

(** X13: when [main] gets past its sanity checks, the table it writes has
    no column whose name starts with two underscores, not even one the
    input had; the other input columns stay first, in their order; and the
    columns "Brand (Matched)", "Match Score" and "Matched Key" are present,
    new ones being added after the input's, with "Revenue (USD)" at most. *)
Theorem written_columns (listing_col price_col units_col : string)
  (input_cols brands_cols out : list string) :
  main_columns listing_col price_col units_col input_cols brands_cols = Some out ->
  (In listing_col input_cols /\ In "brand"%string brands_cols
   /\ In "key"%string brands_cols)
  /\ Forall (fun c => is_internal c = false) out
  /\ (In "Brand (Matched)"%string out /\ In "Match Score"%string out
      /\ In "Matched Key"%string out)
  /\ exists added,
       out = filter (fun c => negb (is_internal c)) input_cols ++ added
       /\ incl added ["Brand (Matched)"; "Match Score"; "Matched Key";
                      "Revenue (USD)"]%string.
Proof.
  apply main_columns_shape.
Qed.

Lemma written_columns_witness :
  let input := ["__id"; "Shop"; "Listing (Cleaned)"; "Price (USD)";
                "Units Sold (Numeric)"]%string in
  main_columns "Listing (Cleaned)" "Price (USD)" "Units Sold (Numeric)"
    input ["brand"; "key"]%string
  = Some ["Shop"; "Listing (Cleaned)"; "Price (USD)"; "Units Sold (Numeric)";
          "Brand (Matched)"; "Match Score"; "Matched Key";
          "Revenue (USD)"]%string
  /\ Forall (fun c => is_internal c = false)
       ["Shop"; "Listing (Cleaned)"; "Price (USD)"; "Units Sold (Numeric)";
        "Brand (Matched)"; "Match Score"; "Matched Key";
        "Revenue (USD)"]%string.
Proof.
  cbv zeta. split; [reflexivity|].
  apply (written_columns "Listing (Cleaned)" "Price (USD)" "Units Sold (Numeric)"
           ["__id"; "Shop"; "Listing (Cleaned)"; "Price (USD)";
            "Units Sold (Numeric)"]%string ["brand"; "key"]%string).
  reflexivity.
Defined.

(** ** The order of the unmatched extract *)

Lemma str_leb_total (a b : str) : str_leb a b = false -> str_leb b a = true.
Proof.
  revert b. induction a as [|x a IH]; intros b H; [discriminate|].
  destruct b as [|y b]; [reflexivity|]. simpl in *.
  apply orb_false_iff in H as [H1 H2]. apply N.ltb_ge in H1.
  destruct (N.eqb_spec x y) as [->|Hne].
  - simpl in H2. rewrite N.eqb_refl, (IH _ H2). apply orb_true_r.
  - assert (y < x)%N by lia. apply orb_true_iff. left. now apply N.ltb_lt.
Qed.

Lemma stands_before_total (a b : value) :
  stands_before a b = false -> stands_before b a = true.
Proof.
  destruct a as [|s|p], b as [|t|q]; simpl; try discriminate; try reflexivity.
  - apply str_leb_total.
  - intros H. apply Qle_bool_iff.
    destruct (Qlt_le_dec p q) as [Hlt|Hle]; [now apply Qlt_le_weak|].
    apply Qle_bool_iff in Hle. congruence.
Qed.

Lemma nothing_after_missing (a : value) :
  stands_before VNaN a = true -> a = VNaN.
Proof.
  destruct a; [reflexivity|discriminate|discriminate].
Qed.

Section SortedRows.

Variable score : frame_row -> value.

Lemma insert_sorted_hd (h r : frame_row) (l : list frame_row) :
  in_order score h r -> HdRel (in_order score) h l ->
  HdRel (in_order score) h (insert_sorted score r l).
Proof.
  intros Hr Hl. destruct l as [|x l]; simpl; [now constructor|].
  destruct (stands_before (score r) (score x)); constructor;
    [exact Hr|now inversion Hl].
Qed.

Lemma insert_sorted_keeps_order (r : frame_row) (l : list frame_row) :
  Sorted (in_order score) l -> Sorted (in_order score) (insert_sorted score r l).
Proof.
  induction 1 as [|h l Hs IH Hh]; simpl; [repeat constructor|].
  destruct (stands_before (score r) (score h)) eqn:E.
  - constructor; [now constructor|]. constructor. exact E.
  - constructor; [exact IH|]. apply insert_sorted_hd; [|exact Hh].
    now apply stands_before_total.
Qed.

Lemma insertion_sort_in_order (l : list frame_row) :
  Sorted (in_order score) (fold_right (insert_sorted score) [] l).
Proof.
  induction l as [|r l IH]; simpl; [constructor|].
  now apply insert_sorted_keeps_order.
Qed.

Lemma in_order_adjacent (l pre post : list frame_row) (a b : frame_row) :
  Sorted (in_order score) l -> l = pre ++ a :: b :: post -> in_order score a b.
Proof.
  intros Hs. revert l Hs. induction pre as [|p pre IH]; intros l Hs ->.
  - inversion Hs as [|? ? _ Hh]. now inversion Hh.
  - inversion Hs as [|? ? Hs' _]. now apply (IH _ Hs').
Qed.

End SortedRows.

(** X14: when the matched table has a "Match Score" column, the rows of the
    unmatched extract stand by descending score: of two neighbouring rows
    with numeric scores the first has the greater or equal one, and a row
    whose score is missing is followed only by rows whose score is
    missing. *)
Theorem unmatched_extract_by_descending_score
  (brand_col units_col price_col : string) (df um : frame)
  (pre post : list frame_row) (a b : frame_row) :
  unmatched_extract brand_col units_col price_col df = Some um ->
  In "Match Score"%string (columns df) ->
  rows um = pre ++ a :: b :: post ->
  In "Match Score"%string (columns um)
  /\ (forall p q, at_col (columns um) "Match Score" a = VNum p ->
                  at_col (columns um) "Match Score" b = VNum q -> (q <= p)%Q)
  /\ (at_col (columns um) "Match Score" a = VNaN ->
      at_col (columns um) "Match Score" b = VNaN).
Proof.
  unfold unmatched_extract.
  destruct (has_column brand_col (columns df)); [|discriminate].
  cbn [columns]. intros [= <-] Hms.
  assert (Hk : In "Match Score"%string
                 (keep_cols units_col price_col (columns df))).
  { unfold keep_cols. apply filter_In. split; [|now apply has_column_spec].
    simpl. tauto. }
  destruct (keep_cols units_col price_col (columns df)) as [|k keep] eqn:Ek;
    [contradiction|].
  cbn [select columns].
  apply has_column_spec in Hk. rewrite Hk.
  cbn [sort_values_desc select columns rows].
  intros Hrows. split; [now apply has_column_spec|].
  pose proof (in_order_adjacent (at_col (k :: keep) "Match Score") _ pre post a b
                (insertion_sort_in_order _ _) Hrows) as Hab.
  unfold in_order in Hab. split.
  - intros p q Ha Hb. rewrite Ha, Hb in Hab. simpl in Hab.
    now apply Qle_bool_iff.
  - intros Ha. rewrite Ha in Hab. now apply nothing_after_missing.
Qed.

Lemma unmatched_extract_by_descending_score_witness :
  let um := {| columns := ["Listing"; "Match Score"]%string;
               rows := [ mk_frame_row 2 [VStr (lit "acme widget"); VNum (100 # 1)];
                         mk_frame_row 0 [VStr (lit "usb hub"); VNum (28 # 1)] ] |} in
  unmatched_extract "Brand (Matched)" "Units Sold (Numeric)" "Price (USD)"
    Sample.matched_table = Some um
  /\ In "Match Score"%string (columns Sample.matched_table)
  /\ (28 # 1 <= 100 # 1)%Q.
Proof.
  cbv zeta. split; [reflexivity|].
  assert (Hc : In "Match Score"%string (columns Sample.matched_table))
    by (simpl; tauto).
  split; [exact Hc|].
  refine (proj1 (proj2 (unmatched_extract_by_descending_score
                   "Brand (Matched)" "Units Sold (Numeric)" "Price (USD)"
                   Sample.matched_table _ [] []
                   (mk_frame_row 2 [VStr (lit "acme widget"); VNum (100 # 1)])
                   (mk_frame_row 0 [VStr (lit "usb hub"); VNum (28 # 1)])
                   eq_refl Hc eq_refl))
            (100 # 1) (28 # 1) eq_refl eq_refl).
Defined.
